(** * Filter-list lifecycle of AdGuard Home ([home/filter.go])

    A shallow embedding of the filter registry, of the download / validate /
    parse pipeline and of the refresh orchestration, followed by the
    properties established for them.

    Conventions of the embedding.
    - A Go [string] and a Go [[]byte] are both sequences of 8-bit bytes.
      Contents are [list ascii]; URLs and display names are [string].
    - [uint32], [int] and [int64] values are [Z]; wrap-around is written out
      where the source can reach it.
    - [time.Time] is a [Z] counting nanoseconds since the Unix epoch.
    - Everything outside the package that the code calls (network, clock,
      temporary files) is an explicit input of the function that consumes
      it; the content directory is a finite map from filter id to file. *)

From Stdlib Require Import ZArith Ascii String Bool.
From stdpp Require Import base tactics option list gmap strings.

Local Open Scope Z_scope.

(** ** Bytes *)

Definition byteZ (c : ascii) : Z := Z.of_N (N_of_ascii c).

Definition LF : ascii := "010"%char.
Definition CR : ascii := "013"%char.
Definition TAB : ascii := "009"%char.
Definition NUL : ascii := "000"%char.
Definition SP : ascii := " "%char.

Definition bytes (s : string) : list ascii := list_ascii_of_string s.

(** ** [hash/crc32]: the IEEE polynomial, bit-reflected, table driven *)

Module Crc32.

Definition IEEE : Z := 0xedb88320.
Definition mask32 : Z := 0xffffffff.

(** [^x] on a [uint32]. *)
Definition not32 (x : Z) : Z := Z.lxor x mask32.

(** One entry of [simpleMakeTable]: eight shift-and-xor rounds. *)
Fixpoint rounds (n : nat) (crc : Z) : Z :=
  match n with
  | O => crc
  | S n =>
      rounds n (if Z.testbit crc 0
                then Z.lxor (Z.shiftr crc 1) IEEE
                else Z.shiftr crc 1)
  end.

Definition IEEETable (i : Z) : Z := rounds 8 i.

(** [crc = tab[byte(crc)^v] ^ (crc >> 8)] *)
Definition step (crc : Z) (v : ascii) : Z :=
  Z.lxor (IEEETable (Z.lxor (Z.land crc 255) (byteZ v))) (Z.shiftr crc 8).

(** [crc32.Update(crc, crc32.IEEETable, p)] *)
Definition Update (crc : Z) (p : list ascii) : Z :=
  not32 (fold_left step p (not32 crc)).

(** [crc32.ChecksumIEEE(p)], the CRC32 of a whole byte sequence. *)
Definition ChecksumIEEE (p : list ascii) : Z := Update 0 p.

End Crc32.

(** ** [strings]: the three functions the package uses *)

Module GoStrings.

(** The encodings of the runes for which [unicode.IsSpace] holds: the six
    ASCII ones, then U+0085, U+00A0, U+1680, U+2000..U+200A, U+2028,
    U+2029, U+202F, U+205F and U+3000 in UTF-8. *)
Definition asciiSpace (c : ascii) : bool :=
  let n := byteZ c in
  (n =? 9) || (n =? 10) || (n =? 11) || (n =? 12) || (n =? 13) || (n =? 32).

(** Width in bytes of the white-space rune a byte sequence starts with,
    [0] when it starts with none. *)
Definition spaceWidth (s : list ascii) : nat :=
  match map byteZ (take 3 s) with
  | 0xc2 :: 0x85 :: _ => 2%nat
  | 0xc2 :: 0xa0 :: _ => 2%nat
  | [0xe1; 0x9a; 0x80] => 3%nat
  | [0xe2; 0x80; c] =>
      if (0x80 <=? c) && (c <=? 0x8a) || (c =? 0xa8) || (c =? 0xa9) || (c =? 0xaf)
      then 3%nat else 0%nat
  | [0xe2; 0x81; 0x9f] => 3%nat
  | [0xe3; 0x80; 0x80] => 3%nat
  | c :: _ => if (c =? 9) || (c =? 10) || (c =? 11) || (c =? 12) || (c =? 13) || (c =? 32)
              then 1%nat else 0%nat
  | [] => 0%nat
  end.

(** The same, for the rune a sequence ends with; [r] is the sequence
    reversed. *)
Definition spaceWidthLast (r : list ascii) : nat :=
  match map byteZ (take 3 r) with
  | 0x85 :: 0xc2 :: _ => 2%nat
  | 0xa0 :: 0xc2 :: _ => 2%nat
  | [0x80; 0x9a; 0xe1] => 3%nat
  | [c; 0x80; 0xe2] =>
      if (0x80 <=? c) && (c <=? 0x8a) || (c =? 0xa8) || (c =? 0xa9) || (c =? 0xaf)
      then 3%nat else 0%nat
  | [0x9f; 0x81; 0xe2] => 3%nat
  | [0x80; 0x80; 0xe3] => 3%nat
  | c :: _ => if (c =? 9) || (c =? 10) || (c =? 11) || (c =? 12) || (c =? 13) || (c =? 32)
              then 1%nat else 0%nat
  | [] => 0%nat
  end.

Fixpoint trimWith (width : list ascii -> nat) (fuel : nat) (s : list ascii)
  : list ascii :=
  match fuel with
  | O => s
  | S fuel =>
      match width s with
      | O => s
      | w => trimWith width fuel (drop w s)
      end
  end.

(** [strings.TrimSpace]: leading, then trailing white space removed. *)
Definition TrimSpace (s : list ascii) : list ascii :=
  let l := trimWith spaceWidth (length s) s in
  rev (trimWith spaceWidthLast (length l) (rev l)).

(** [strings.ToLower] as seen by a search for an ASCII needle: the letters
    [A]..[Z] are mapped, every other byte is kept. *)
Definition lowerByte (c : ascii) : ascii :=
  let n := byteZ c in
  if (65 <=? n) && (n <=? 90) then ascii_of_N (Z.to_N (n + 32)) else c.

Definition ToLower (s : list ascii) : list ascii := map lowerByte s.

Fixpoint hasPrefix (p s : list ascii) : bool :=
  match p, s with
  | [], _ => true
  | a :: p, b :: s => bool_decide (a = b) && hasPrefix p s
  | _ :: _, [] => false
  end.

(** [strings.Index(s, sub) >= 0] *)
Fixpoint Contains (s sub : list ascii) : bool :=
  hasPrefix sub s ||
  match s with
  | [] => false
  | _ :: s' => Contains s' sub
  end.

End GoStrings.

(** ** [bufio]: [Reader.ReadString] over the bytes still to be read *)

Module Bufio.

(** [ReadString delim r] is [(line, r', err)]: the bytes up to and
    including the first [delim], the rest of the input and [false]; at the
    end of the input it is what was left, [[]] and [true] (io.EOF). *)
Fixpoint ReadString (delim : ascii) (r : list ascii)
  : list ascii * list ascii * bool :=
  match r with
  | [] => ([], [], true)
  | c :: r' =>
      if bool_decide (c = delim) then ([c], r', false)
      else let '(line, rest, err) := ReadString delim r' in
           (c :: line, rest, err)
  end.

End Bufio.

(** ** [time] *)

Definition nanosecond : Z := 1000000000.

(** [time.Time{}], January 1 of year 1. *)
Definition zeroTime : Z := -62135596800 * nanosecond.

(** [t.Unix()] *)
Definition Unix (t : Z) : Z := t `div` nanosecond.

(** Two's-complement wrap of an [int64] (and of [int] on 64-bit targets). *)
Definition wrap64 (x : Z) : Z := (x + 2 ^ 63) `mod` 2 ^ 64 - 2 ^ 63.

(** ** The filter entity *)

(** [type filter struct], with the two fields of the embedded
    [dnsfilter.Filter] that the package reads ([ID], [Data]). *)
Record filter := mkFilter {
  Enabled : bool;
  URL : string;
  Name : string;
  RulesCount : Z;
  LastUpdated : Z;
  checksum : Z;
  white : bool;
  ID : Z;
  Data : list ascii
}.

(** The zero value, [var uf filter]. *)
Definition zeroFilter : filter :=
  mkFilter false "" "" 0 zeroTime 0 false 0 [].

Definition setEnabled (v : bool) (f : filter) : filter :=
  mkFilter v (URL f) (Name f) (RulesCount f) (LastUpdated f) (checksum f) (white f) (ID f) (Data f).
Definition setURL (v : string) (f : filter) : filter :=
  mkFilter (Enabled f) v (Name f) (RulesCount f) (LastUpdated f) (checksum f) (white f) (ID f) (Data f).
Definition setName (v : string) (f : filter) : filter :=
  mkFilter (Enabled f) (URL f) v (RulesCount f) (LastUpdated f) (checksum f) (white f) (ID f) (Data f).
Definition setRulesCount (v : Z) (f : filter) : filter :=
  mkFilter (Enabled f) (URL f) (Name f) v (LastUpdated f) (checksum f) (white f) (ID f) (Data f).
Definition setLastUpdated (v : Z) (f : filter) : filter :=
  mkFilter (Enabled f) (URL f) (Name f) (RulesCount f) v (checksum f) (white f) (ID f) (Data f).
Definition setChecksum (v : Z) (f : filter) : filter :=
  mkFilter (Enabled f) (URL f) (Name f) (RulesCount f) (LastUpdated f) v (white f) (ID f) (Data f).
Definition setID (v : Z) (f : filter) : filter :=
  mkFilter (Enabled f) (URL f) (Name f) (RulesCount f) (LastUpdated f) (checksum f) (white f) v (Data f).

(** ** Status flags of [filterSetProperties] and refresh flags *)

Definition statusFound : Z := 1.
Definition statusEnabledChanged : Z := 2.
Definition statusURLChanged : Z := 4.
Definition statusURLExists : Z := 8.
Definition statusUpdateRequired : Z := 0x10.

Definition FilterRefreshForce : Z := 1.
Definition FilterRefreshAllowlists : Z := 2.
Definition FilterRefreshBlocklists : Z := 4.

(** ** The content directory *)

(** A content file: its bytes and its modification time. *)
Record File := mkFile { f_data : list ascii; f_mtime : Z }.

(** [<data-dir>/filters/<id>.txt]: the path is a function of the id alone,
    so the directory is a map from ids to files. *)
Abbreviation disk := (gmap Z File).

(** [os.Chtimes(path, t, t)]; a missing file is an error that the caller
    only logs. *)
Definition Chtimes (id : Z) (t : Z) (d : disk) : disk :=
  match d !! id with
  | Some file => <[id := mkFile (f_data file) t]> d
  | None => d
  end.

(** ** Content checks and parsing *)

(** [(c >= ' ' && c != 0x7f) || c == '\n' || c == '\r' || c == '\t'] *)
Definition printable (c : ascii) : bool :=
  let n := byteZ c in
  ((32 <=? n) && negb (n =? 0x7f)) || bool_decide (c = LF)
  || bool_decide (c = CR) || bool_decide (c = TAB).

(** [isPrintableText]: the loop returns [false] at the first byte that
    fails the test and [true] when there is none. *)
Definition isPrintableText (data : list ascii) : bool := forallb printable data.

Fixpoint dropSpaces (s : list ascii) : list ascii :=
  match s with
  | c :: s' => if bool_decide (c = SP) then dropSpaces s' else s
  | [] => []
  end.

(** [filterTitleRegexp] applied to a whole line. The pattern is anchored at
    both ends: the literal [! Title:], one or more spaces, then a group of
    any characters but line feeds. The spaces are matched greedily, so the
    group is what follows the longest run of them. [Some] of the group when
    the line matches. *)
Definition filterTitleRegexp (line : list ascii) : option (list ascii) :=
  if GoStrings.hasPrefix (bytes "! Title: ") line then
    let cap := dropSpaces (drop 9 line) in
    if existsb (fun c => bool_decide (c = LF)) cap then None else Some cap
  else None.

(** The variables of the loop of [parseFilterContents]. *)
Record parseState := mkParse {
  p_rulesCount : Z;
  p_checksum : Z;
  p_name : string;
  p_seenTitle : bool
}.

(** The body of the loop, for one line returned without error. *)
Definition parseLine (line : list ascii) (st : parseState) : parseState :=
  let checksum := Crc32.Update (p_checksum st) line in
  let line := GoStrings.TrimSpace line in
  match line with
  | [] => mkParse (p_rulesCount st) checksum (p_name st) (p_seenTitle st)
  | c :: _ =>
      if bool_decide (c = "!"%char) then
        match filterTitleRegexp line with
        | Some m =>
            if negb (p_seenTitle st)
            then mkParse (p_rulesCount st) checksum (string_of_list_ascii m) true
            else mkParse (p_rulesCount st) checksum (p_name st) (p_seenTitle st)
        | None => mkParse (p_rulesCount st) checksum (p_name st) (p_seenTitle st)
        end
      else mkParse (p_rulesCount st + 1) checksum (p_name st) (p_seenTitle st)
  end.

(** The loop: read a line; on an error (the end of the input) leave at once,
    whatever was read with it; otherwise run the body and go on. *)
Fixpoint parseLoop (fuel : nat) (r : list ascii) (st : parseState) : parseState :=
  match fuel with
  | O => st
  | S fuel =>
      let '(line, r', err) := Bufio.ReadString LF r in
      if err then st else parseLoop fuel r' (parseLine line st)
  end.

(** [parseFilterContents]: rule count, checksum and name. Every turn of the
    loop consumes at least one byte, so one turn more than the length of the
    input reaches the end. *)
Definition parseFilterContents (f : list ascii) : Z * Z * string :=
  let st := parseLoop (S (length f)) f (mkParse 0 0 "" false) in
  (p_rulesCount st, p_checksum st, p_name st).

(** ** The fetch pipeline *)

Inductive readErr := EOF | ErrUnexpected.

(** [err == io.EOF] *)
Definition isEOF (err : readErr) : bool :=
  match err with EOF => true | ErrUnexpected => false end.

(** What one call of [resp.Body.Read(buf)] delivers, and whether writing it
    to the temporary file fails. *)
Record Chunk := mkChunk { c_data : list ascii; c_writeErr : bool }.

(** A response body as the loop sees it: reads that return no error, then
    one read that returns its bytes together with [io.EOF] or another
    error. *)
Record Body := mkBody { b_chunks : list Chunk; b_last : Chunk; b_err : readErr }.

Inductive Response :=
| GetError
| Resp (StatusCode : Z) (body : Body).

(** What one call of [update] meets outside the program. *)
Record World := mkWorld {
  w_tempFileErr : bool;   (* ioutil.TempFile fails *)
  w_resp : Response;      (* Context.client.Get *)
  w_renameErr : bool;     (* os.Rename fails *)
  w_mtime : Z;            (* modification time of the temporary file *)
  w_now : Z               (* time.Now() in update *)
}.

Inductive fetchError :=
| ErrTempFile
| ErrGet
| ErrStatus (code : Z)
| ErrNonPrintable
| ErrHTML
| ErrWrite
| ErrRead
| ErrRename.

(** The variables of the download loop. [d_checked] is a ghost variable:
    the arguments [isPrintableText] was called with, most recent first. *)
Record download := mkDownload {
  d_htmlTest : bool;
  d_firstChunk : list ascii;
  d_firstChunkLen : nat;
  d_tmpfile : list ascii;
  d_total : Z;
  d_checked : list (list ascii)
}.

Definition firstChunkSize : nat := 4 * 1024.

Definition download0 : download :=
  mkDownload true (replicate firstChunkSize NUL) 0 [] 0 [].

(** [copy(firstChunk[firstChunkLen:], buf[:num])] *)
Definition copyAt (dst : list ascii) (at_ : nat) (src : list ascii) : list ascii :=
  take at_ dst ++ take (length dst - at_) src
  ++ drop (at_ + Nat.min (length dst - at_) (length src)) dst.

(** The sniffing part of one turn of the loop: [inl] is the early return. *)
Definition sniff (data : list ascii) (eof : bool) (st : download)
  : fetchError * list (list ascii) + download :=
  if d_htmlTest st then
    let num := Nat.min (length data) (length (d_firstChunk st) - d_firstChunkLen st) in
    let firstChunk := copyAt (d_firstChunk st) (d_firstChunkLen st) (take num data) in
    let firstChunkLen := (d_firstChunkLen st + num)%nat in
    if bool_decide (firstChunkLen = length firstChunk) || eof then
      let checked := firstChunk :: d_checked st in
      if negb (isPrintableText firstChunk) then inl (ErrNonPrintable, checked)
      else
        let s := GoStrings.ToLower firstChunk in
        if GoStrings.Contains s (bytes "<html") || GoStrings.Contains s (bytes "<!doctype")
        then inl (ErrHTML, checked)
        else inr (mkDownload false [] firstChunkLen (d_tmpfile st) (d_total st) checked)
    else inr (mkDownload true firstChunk firstChunkLen (d_tmpfile st) (d_total st) (d_checked st))
  else inr st.

(** One turn of the loop up to and including the write to the temporary
    file. *)
Definition readStep (c : Chunk) (eof : bool) (st : download)
  : fetchError * list (list ascii) + download :=
  let st := mkDownload (d_htmlTest st) (d_firstChunk st) (d_firstChunkLen st)
              (d_tmpfile st) (d_total st + Z.of_nat (length (c_data c))) (d_checked st) in
  match sniff (c_data c) eof st with
  | inl e => inl e
  | inr st =>
      if c_writeErr c then inl (ErrWrite, d_checked st)
      else inr (mkDownload (d_htmlTest st) (d_firstChunk st) (d_firstChunkLen st)
                  (d_tmpfile st ++ c_data c) (d_total st) (d_checked st))
  end.

(** The whole loop over a body. *)
Fixpoint readAll (chunks : list Chunk) (last : Chunk) (err : readErr) (st : download)
  : fetchError * list (list ascii) + download :=
  match chunks with
  | c :: chunks =>
      match readStep c false st with
      | inl e => inl e
      | inr st => readAll chunks last err st
      end
  | [] =>
      match readStep last (isEOF err) st with
      | inl e => inl e
      | inr st =>
          match err with
          | EOF => inr st
          | ErrUnexpected => inl (ErrRead, d_checked st)
          end
      end
  end.

(** [updateIntl]: the filter as the method leaves it, the two results and
    the content directory. The temporary file is removed on every path but
    the successful rename, so it never shows in the directory. *)
Definition updateIntl (f : filter) (w : World) (d : disk)
  : filter * bool * option fetchError * disk :=
  if w_tempFileErr w then (f, false, Some ErrTempFile, d)
  else
    match w_resp w with
    | GetError => (f, false, Some ErrGet, d)
    | Resp code body =>
        if negb (code =? 200) then (f, false, Some (ErrStatus code), d)
        else
          match readAll (b_chunks body) (b_last body) (b_err body) download0 with
          | inl (e, _) => (f, false, Some e, d)
          | inr st =>
              let '(rulesCount, sum, filterName) := parseFilterContents (d_tmpfile st) in
              if checksum f =? sum then (f, false, None, d)
              else
                let f := if bool_decide (filterName ≠ ""%string)
                         then setName filterName f else f in
                let f := setRulesCount rulesCount f in
                let f := setChecksum sum f in
                if w_renameErr w then (f, false, Some ErrRename, d)
                else (f, true, None, <[ID f := mkFile (d_tmpfile st) (w_mtime w)]> d)
          end
    end.

(** [update]: [updateIntl], then [LastUpdated] on every path, then the
    modification time of the content file unless it was replaced. *)
Definition update (f : filter) (w : World) (d : disk)
  : filter * bool * option fetchError * disk :=
  let '(f, b, err, d) := updateIntl f w d in
  let f := setLastUpdated (w_now w) f in
  let d := if b then d else Chtimes (ID f) (LastUpdated f) d in
  (f, b, err, d).

(** [load]: metadata from the content file; [true] is the error of a
    missing file, which leaves the filter as it is. *)
Definition load (f : filter) (d : disk) : filter * bool :=
  match d !! ID f with
  | None => (f, true)
  | Some file =>
      let '(rulesCount, sum, _) := parseFilterContents (f_data file) in
      (setLastUpdated (f_mtime file) (setChecksum sum (setRulesCount rulesCount f)), false)
  end.

Definition unload (f : filter) : filter := setChecksum 0 (setRulesCount 0 f).

(** ** The filter store *)

(** The part of [config] the package works on. *)
Record configuration := mkConfig {
  Filters : list filter;
  WhitelistFilters : list filter;
  FiltersUpdateIntervalHours : Z;
  FilteringEnabled : bool;
  UserRules : list string
}.

Definition setFilters (v : list filter) (c : configuration) : configuration :=
  mkConfig v (WhitelistFilters c) (FiltersUpdateIntervalHours c) (FilteringEnabled c) (UserRules c).
Definition setWhitelistFilters (v : list filter) (c : configuration) : configuration :=
  mkConfig (Filters c) v (FiltersUpdateIntervalHours c) (FilteringEnabled c) (UserRules c).

(** [filters := &config.Filters; if whitelist { filters = &config.WhitelistFilters }] *)
Definition selected (whitelist : bool) (c : configuration) : list filter :=
  if whitelist then WhitelistFilters c else Filters c.
Definition setSelected (whitelist : bool) (v : list filter) (c : configuration)
  : configuration :=
  if whitelist then setWhitelistFilters v c else setFilters v c.

Definition filterExistsNoLock (c : configuration) (url : string) : bool :=
  existsb (fun f => bool_decide (URL f = url)) (Filters c)
  || existsb (fun f => bool_decide (URL f = url)) (WhitelistFilters c).

Definition filterAdd (f : filter) (c : configuration) : configuration * bool :=
  if filterExistsNoLock c (URL f) then (c, false)
  else if white f then (setWhitelistFilters (WhitelistFilters c ++ [f]) c, true)
  else (setFilters (Filters c ++ [f]) c, true).

(** [filterSetProperties]. The loop stops at the first filter of the
    selected collection whose URL is [url]; [i] is its index and every
    assignment through [f] is a store at that index. *)
Definition filterSetProperties (url : string) (newf : filter) (whitelist : bool)
    (c : configuration) (d : disk) : configuration * Z :=
  let r := 0 in
  match list_find (fun f => URL f = url) (selected whitelist c) with
  | None => (c, 0)
  | Some (i, f) =>
      let store f c := setSelected whitelist (<[i := f]> (selected whitelist c)) c in
      let f := setName (Name newf) f in
      let c := store f c in
      let urlChanged := bool_decide (URL f ≠ URL newf) in
      let r := if urlChanged then Z.lor r (Z.lor statusURLChanged statusUpdateRequired) else r in
      if urlChanged && filterExistsNoLock c (URL newf) then (c, statusURLExists)
      else
        let f := if urlChanged
                 then setRulesCount 0 (setChecksum 0 (setLastUpdated zeroTime
                        (unload (setURL (URL newf) f))))
                 else f in
        let '(f, r) :=
          if bool_decide (Enabled f ≠ Enabled newf) then
            let r := Z.lor r statusEnabledChanged in
            let f := setEnabled (Enabled newf) f in
            if Enabled f then
              if Z.land r statusURLChanged =? 0 then
                let '(f', e) := load f d in
                if e then
                  (setRulesCount 0 (setChecksum 0 (setLastUpdated zeroTime f')),
                   Z.lor r statusUpdateRequired)
                else (f', r)
              else (f, r)
            else (unload f, r)
          else (f, r) in
        (store f c, Z.lor r statusFound)
  end.

(** ** Startup *)

(** [assignUniqueFilterID]: the value handed out and the counter after. *)
Definition assignUniqueFilterID (nextFilterID : Z) : Z * Z :=
  (nextFilterID, wrap64 (nextFilterID + 1)).

(** [loadFilters]: the array after the loop and the counter after it. A
    failed [load] is only logged. *)
Fixpoint loadFilters (array : list filter) (nextFilterID : Z) (d : disk)
  : list filter * Z :=
  match array with
  | [] => ([], nextFilterID)
  | f :: array =>
      let '(f, nextFilterID) :=
        if ID f =? 0
        then let '(v, n) := assignUniqueFilterID nextFilterID in (setID v f, n)
        else (f, nextFilterID) in
      let f := if Enabled f then fst (load f d) else f in
      let '(array, nextFilterID) := loadFilters array nextFilterID d in
      (f :: array, nextFilterID)
  end.

(** The loop of [deduplicateFilters] with its map of URLs seen so far; the
    result is the entries written to the front of the array. *)
Fixpoint dedupLoop (fs : list filter) (urls : gmap string bool) : list filter :=
  match fs with
  | [] => []
  | f :: fs =>
      match urls !! URL f with
      | None => f :: dedupLoop fs (<[URL f := true]> urls)
      | Some _ => dedupLoop fs urls
      end
  end.

Definition deduplicateFilters (c : configuration) : configuration :=
  setFilters (dedupLoop (Filters c) ∅) c.

Definition updateUniqueFilterID (filters : list filter) (nextFilterID : Z) : Z :=
  fold_left (fun next f => if next <? ID f then wrap64 (ID f + 1) else next)
    filters nextFilterID.

(** [initFiltering]; [nextFilterID] enters as the time the process
    started. *)
Definition initFiltering (c : configuration) (nextFilterID : Z) (d : disk)
  : configuration * Z :=
  let '(fs, nextFilterID) := loadFilters (Filters c) nextFilterID d in
  let c := setFilters fs c in
  let '(ws, nextFilterID) := loadFilters (WhitelistFilters c) nextFilterID d in
  let c := setWhitelistFilters ws c in
  let c := deduplicateFilters c in
  let nextFilterID := updateUniqueFilterID (Filters c) nextFilterID in
  let nextFilterID := updateUniqueFilterID (WhitelistFilters c) nextFilterID in
  (c, nextFilterID).

(** ** The refresh orchestrator *)

(** What one call of [refreshFiltersArray] meets outside the program: the
    clock read on entry and the world of each [update], in call order. *)
Record Env := mkEnv { e_now : Z; e_fetch : nat -> World }.

(** The first loop body: [Some] of the copy appended to [updateFilters]. *)
Definition due (force : bool) (now hours : Z) (f : filter) : option filter :=
  if negb (Enabled f) then None
  else
    let expireTime := Unix (LastUpdated f) + hours * 60 * 60 in
    if negb force && (expireTime >? Unix now) then None
    else Some (setChecksum (checksum f) (setName (Name f) (setURL (URL f)
                 (setID (ID f) zeroFilter)))).

Definition snapshot (force : bool) (now hours : Z) (filters : list filter)
  : list filter :=
  omap (due force now hours) filters.

(** The second loop, from index [i] on: the filters after [update], the
    flags, [nfail] and the content directory. *)
Fixpoint fetchAll (ufs : list filter) (fetch : nat -> World) (i : nat) (d : disk)
  : list filter * list bool * nat * disk :=
  match ufs with
  | [] => ([], [], 0%nat, d)
  | uf :: ufs =>
      let '(uf, updated, err, d) := update uf (fetch i) d in
      let '(ufs, flags, nfail, d) := fetchAll ufs fetch (S i) d in
      (uf :: ufs, updated :: flags,
       (if err is Some _ then S nfail else nfail), d)
  end.

(** [f.ID != uf.ID || f.URL != uf.URL] negated. *)
Definition sameFilter (uf f : filter) : bool :=
  bool_decide (ID f = ID uf) && bool_decide (URL f = URL uf).

(** The body of the inner commit loop for one live filter. *)
Definition merge (uf : filter) (updated : bool) (f : filter) : filter :=
  if sameFilter uf f then
    let f := setLastUpdated (LastUpdated uf) f in
    if updated
    then setChecksum (checksum uf) (setRulesCount (RulesCount uf) (setName (Name uf) f))
    else f
  else f.

(** The commit loop over the snapshot: live filters and [updateCount]. *)
Fixpoint commit (ufs : list filter) (flags : list bool) (filters : list filter)
    (updateCount : Z) : list filter * Z :=
  match ufs, flags with
  | uf :: ufs, updated :: flags =>
      let n := length (List.filter (sameFilter uf) filters) in
      commit ufs flags (map (merge uf updated) filters)
        (if updated then updateCount + Z.of_nat n else updateCount)
  | _, _ => (filters, updateCount)
  end.

(** The four results of [refreshFiltersArray]. *)
Record refreshed := mkRefreshed {
  r_updateCount : Z;
  r_updateFilters : list filter;
  r_updateFlags : list bool;
  r_netError : bool
}.

Definition refreshFiltersArray (filters : list filter) (force : bool) (hours : Z)
    (env : Env) (d : disk) : refreshed * list filter * disk :=
  let updateFilters := snapshot force (e_now env) hours filters in
  if bool_decide (length updateFilters = 0%nat)
  then (mkRefreshed 0 [] [] false, filters, d)
  else
    let '(updateFilters, updateFlags, nfail, d) :=
      fetchAll updateFilters (e_fetch env) 0 d in
    if bool_decide (nfail = length updateFilters)
    then (mkRefreshed 0 [] [] true, filters, d)
    else
      let '(filters, updateCount) := commit updateFilters updateFlags filters 0 in
      (mkRefreshed updateCount updateFilters updateFlags false, filters, d).

(** A descriptor handed to the serving engine: an id with inline data (the
    user rules) or with the path of its content file, which the id fixes. *)
Inductive descriptor :=
| Inline (id : Z) (data : list ascii)
| ByPath (id : Z).

(** [strings.Join(config.UserRules, "\n")] *)
Fixpoint joinLines (l : list string) : list ascii :=
  match l with
  | [] => []
  | [s] => bytes s
  | s :: l => bytes s ++ LF :: joinLines l
  end.

Definition userFilter (c : configuration) : filter :=
  mkFilter true "" "" 0 zeroTime 0 false 0 (joinLines (UserRules c)).

(** [enableFilters]: the two lists passed to [SetFilters]. *)
Definition enableFilters (c : configuration) : list descriptor * list descriptor :=
  if FilteringEnabled c then
    (Inline (ID (userFilter c)) (Data (userFilter c))
       :: map (fun f => ByPath (ID f)) (List.filter Enabled (Filters c)),
     map (fun f => ByPath (ID f)) (List.filter Enabled (WhitelistFilters c)))
  else ([], []).

(** The process-wide state a refresh works on; [engine] is the last pair of
    lists given to the serving engine. *)
Record state := mkState {
  config : configuration;
  refreshStatus : Z;
  files : disk;
  engine : option (list descriptor * list descriptor)
}.

(** [refreshFiltersIfNecessary]; [envB] and [envW] are the worlds of the
    block-list and of the allow-list pass. The result is the count, the
    network-error flag and the state after. The removal of the [.old]
    files next to the content files has no effect on the directory as it is
    modelled, which holds the content files only. *)
Definition refreshFiltersIfNecessary (flags : Z) (envB envW : Env) (s : state)
  : Z * bool * state :=
  let c := config s in
  let force := negb (Z.land flags FilterRefreshForce =? 0) in
  let '(rb, c, d) :=
    if negb (Z.land flags FilterRefreshBlocklists =? 0) then
      let '(rb, fs, d) :=
        refreshFiltersArray (Filters c) force (FiltersUpdateIntervalHours c) envB (files s) in
      (rb, setFilters fs c, d)
    else (mkRefreshed 0 [] [] false, c, files s) in
  let '(rw, c, d) :=
    if negb (Z.land flags FilterRefreshAllowlists =? 0) then
      let '(rw, ws, d) :=
        refreshFiltersArray (WhitelistFilters c) force (FiltersUpdateIntervalHours c) envW d in
      (rw, setWhitelistFilters ws c, d)
    else (mkRefreshed 0 [] [] false, c, d) in
  let updateCount := r_updateCount rb + r_updateCount rw in
  if r_netError rb && r_netError rw then (0, true, mkState c (refreshStatus s) d (engine s))
  else if negb (updateCount =? 0)
  then (updateCount, false, mkState c (refreshStatus s) d (Some (enableFilters c)))
  else (updateCount, false, mkState c (refreshStatus s) d (engine s)).

(** ** The single-flight guard and the scheduler *)

(** [atomic.CompareAndSwapUint32(&refreshStatus, 0, 1)] *)
Definition compareAndSwap (s : state) : bool * state :=
  if refreshStatus s =? 0
  then (true, mkState (config s) 1 (files s) (engine s))
  else (false, s).

Definition setRefreshStatus (v : Z) (s : state) : state :=
  mkState (config s) v (files s) (engine s).



Definition maxInterval : Z := 1 * 60 * 60.
Definition initialInterval : Z := 5.

(** One turn of the loop of [periodicallyRefreshFilters], up to the sleep:
    the interval slept, whether a cycle was run, and the state after. *)
Definition tick (envB envW : Env) (intval : Z) (s : state) : Z * bool * state :=
  let isNetworkErr := false in
  let '(ran, isNetworkErr, intval, s) :=
    if negb (FiltersUpdateIntervalHours (config s) =? 0) then
      let '(set, s1) := compareAndSwap s in
      if set then
        let '(_, isNetworkErr, s2) :=
          refreshFiltersIfNecessary (Z.lor FilterRefreshBlocklists FilterRefreshAllowlists)
            envB envW s1 in
        let s3 := setRefreshStatus 0 s2 in
        (true, isNetworkErr, (if negb isNetworkErr then maxInterval else intval), s3)
      else (false, isNetworkErr, intval, s1)
    else (false, isNetworkErr, intval, s) in
  let intval :=
    if isNetworkErr then
      let intval := wrap64 (intval * 2) in
      if intval >? maxInterval then maxInterval else intval
    else intval in
  (intval, ran, s).

(** * Vocabulary of the properties *)

(** Some filter of [fs] has the URL [url]. *)
Definition hasURL (url : string) (fs : list filter) : Prop :=
  ∃ g, g ∈ fs ∧ URL g = url.

(** The filter [filterSetProperties] works on: the first of the selected
    collection with the given URL. *)
Definition located (url : string) (whitelist : bool) (c : configuration)
    (i : nat) (f : filter) : Prop :=
  list_find (fun f => URL f = url) (selected whitelist c) = Some (i, f).

(** A URL change that collides: the new URL differs from the filter's and
    some filter of either collection has it. *)
Definition collides (url : string) (newf : filter) (c : configuration) : Prop :=
  url ≠ URL newf ∧ hasURL (URL newf) (Filters c ++ WhitelistFilters c).

Definition listA : filter := mkFilter true "http://a/list.txt" "A" 3 0 77 false 11 [].
Definition listB : filter := mkFilter true "http://b/list.txt" "B" 4 0 88 false 12 [].
Definition twoLists : configuration := mkConfig [listA; listB] [] 24 true [].


(** What a turn of the periodic loop does about a cycle: [None] when it runs
    none (refreshing is switched off, or the flag says one is running),
    [Some e] when it runs one and the cycle reports [e] as its network
    error. *)
Definition cycleOutcome (envB envW : Env) (s : state) : option bool :=
  if negb (FiltersUpdateIntervalHours (config s) =? 0) then
    let '(set, s1) := compareAndSwap s in
    if set then
      Some (snd (fst (refreshFiltersIfNecessary
                        (Z.lor FilterRefreshBlocklists FilterRefreshAllowlists)
                        envB envW s1)))
    else None
  else None.

(** The intervals slept over successive turns; each turn meets its own
    worlds and whatever state the process is in by then. *)
Fixpoint schedule (turns : list (Env * Env * state)) (intval : Z) : list Z :=
  match turns with
  | [] => []
  | (envB, envW, s) :: turns =>
      let intval := fst (fst (tick envB envW intval s)) in
      intval :: schedule turns intval
  end.

(** The interval in force after the given turns. *)
Definition intervalAfter (turns : list (Env * Env * state)) : Z :=
  fold_left (fun intval '(envB, envW, s) => fst (fst (tick envB envW intval s)))
    turns initialInterval.

(** A turn whose cycle completes and reports total network failure. *)
Definition totalFailure (turn : Env * Env * state) : Prop :=
  let '(envB, envW, s) := turn in cycleOutcome envB envW s = Some true.

(** An outage: every request fails in transport. *)
Definition down : World := mkWorld false GetError false 0 (1600000000 * nanosecond).
Definition outage : Env := mkEnv (1600000000 * nanosecond) (fun _ => down).

Definition allowA : filter :=
  mkFilter true "http://a/allow.txt" "allow" 0 0 0 true 13 [].
Definition idle : state :=
  mkState (mkConfig [listA; listB] [allowA] 24 true []) 0 ∅ None.

(** What [loadFilters] does to the identifiers alone. *)
Fixpoint assignIds (ids : list Z) (next : Z) : list Z * Z :=
  match ids with
  | [] => ([], next)
  | x :: ids =>
      let '(x, next) := if x =? 0 then assignUniqueFilterID next else (x, next) in
      let '(ids, next) := assignIds ids next in
      (x :: ids, next)
  end.

(** Number of filters that come without an identifier. *)
Definition unassigned (ids : list Z) : Z :=
  Z.of_nat (length (List.filter (fun x => x =? 0) ids)).

Definition persisted (ids : list Z) : list Z :=
  List.filter (fun x => negb (x =? 0)) ids.

(** The identifiers of both collections, block-lists first. *)
Definition allIDs (c : configuration) : list Z :=
  map ID (Filters c ++ WhitelistFilters c).

Definition sameId : configuration :=
  mkConfig [setID 7 listA] [setID 7 allowA] 24 true [].

Definition fresh : configuration :=
  mkConfig [setID 0 listA; listB] [setID 0 allowA] 24 true [].

(** The three results of [update] that do not concern the content
    directory; they do not depend on it. *)
Definition fetched (uf : filter) (w : World) : filter := (update uf w ∅).1.1.1.
Definition changed (uf : filter) (w : World) : bool := (update uf w ∅).1.1.2.
Definition fetchErr (uf : filter) (w : World) : option fetchError := (update uf w ∅).1.2.

(** The snapshot after the fetch loop, with the flags: entry [j] is what
    [update] made of snapshot entry [j] in the world of call [i + j]. *)
Definition results (ufs : list filter) (fetch : nat → World) (i : nat)
  : list (filter * bool) :=
  imap (fun j uf => (fetched uf (fetch (i + j)%nat), changed uf (fetch (i + j)%nat))) ufs.

Definition failures (ufs : list filter) (fetch : nat → World) (i : nat) : nat :=
  length (List.filter (fun b : bool => b)
            (imap (fun j uf => bool_decide (fetchErr uf (fetch (i + j)%nat) ≠ None)) ufs)).

(** What the commit loop makes of one live filter: the merges of all
    snapshot entries, in order. *)
Definition mergeAll (res : list (filter * bool)) (f : filter) : filter :=
  fold_left (fun f '(uf, updated) => merge uf updated f) res f.

(** A list of 300 rules, 5700 bytes, every line ended by a line feed. *)
Definition rule : list ascii := bytes "||ads.example.org^" ++ [LF].
Definition rules300 : list ascii := concat (replicate 300 rule).

(** A world in which the server answers 200 with [data] in one read. *)
Definition serves (data : list ascii) (t : Z) : World :=
  mkWorld false (Resp 200 (mkBody [] (mkChunk data false) EOF)) false t t.

(** A world in which the server answers 404. *)
Definition notFound (t : Z) : World :=
  mkWorld false (Resp 404 (mkBody [] (mkChunk [] false) EOF)) false t t.

Definition t0 : Z := 1600000000 * nanosecond.
Definition t1 : Z := 1600000001 * nanosecond.
Definition t2 : Z := 1600000002 * nanosecond.

(** First request fails, second succeeds. *)
Definition firstFails : Env :=
  mkEnv t0 (fun j => match j with O => notFound t1 | _ => serves rules300 t2 end).



(** The checksum [parseFilterContents] computes for the 300 rules. *)
Definition sum300 : Z := Eval vm_compute in (parseFilterContents rules300).1.2.




(** The two checks on a complete sample [s], as [sniff] makes them. *)
Definition verdict (s : list ascii) (len : nat) (st : download)
  : fetchError * list (list ascii) + download :=
  if negb (isPrintableText s) then inl (ErrNonPrintable, s :: d_checked st)
  else if GoStrings.Contains (GoStrings.ToLower s) (bytes "<html")
          || GoStrings.Contains (GoStrings.ToLower s) (bytes "<!doctype")
       then inl (ErrHTML, s :: d_checked st)
       else inr (mkDownload false [] len (d_tmpfile st) (d_total st) (s :: d_checked st)).

(** The loop before the sample is complete: [data] is what was read so
    far. *)
Definition sampling (data : list ascii) (st : download) : Prop :=
  d_htmlTest st = true
  ∧ d_firstChunkLen st = length data
  ∧ (length data < firstChunkSize)%nat
  ∧ d_firstChunk st = data ++ replicate (firstChunkSize - length data) NUL
  ∧ d_checked st = [].

(** The bytes a sequence of reads delivers. *)
Definition delivered (cs : list Chunk) : list ascii := concat (map c_data cs).

(** What the fetch shows of a sample [s] checked exactly once: the ghost
    list is [[s]], and the fetch ends with [ErrNonPrintable] exactly when
    [isPrintableText s] is false. *)
Definition sniffedOnce (s : list ascii)
    (r : fetchError * list (list ascii) + download) : Prop :=
  match r with
  | inl (e, checked) =>
      checked = [s] ∧ (e = ErrNonPrintable ↔ isPrintableText s = false)
  | inr st => d_checked st = [s] ∧ isPrintableText s = true
  end.

(** Bytes [isPrintableText] lets through: printable ASCII, every byte from
    0x80 up, line feed, carriage return and tab. *)
Definition allowedByte (c : ascii) : Prop :=
  32 ≤ byteZ c ≤ 126 ∨ 128 ≤ byteZ c ∨ c = LF ∨ c = CR ∨ c = TAB.

(** The bytes of the claim: printable ASCII, line feed, carriage return and
    tab. *)
Definition asciiTextByte (c : ascii) : Prop :=
  32 ≤ byteZ c ≤ 126 ∨ c = LF ∨ c = CR ∨ c = TAB.

(** The samples [isPrintableText] was called with during a fetch. *)
Definition checkedSamples (r : fetchError * list (list ascii) + download)
  : list (list ascii) :=
  match r with
  | inl (_, checked) => checked
  | inr st => d_checked st
  end.

(** A line with a two-byte UTF-8 letter, then the 300 rules. *)
Definition accented : list ascii :=
  bytes "! caf" ++ ["195"%char; "169"%char; LF] ++ rules300.

(** The input made of the lines [ls], each followed by a line feed. *)
Definition joinLF (ls : list (list ascii)) : list ascii :=
  concat (map (fun l => l ++ [LF]) ls).



Definition parse0 : parseState := mkParse 0 0 "" false.


(** The 300 rules followed by one more rule that no line feed ends. *)
Definition unterminated : list ascii := rules300 ++ bytes "||last.example.org^".

(** The second check of [sniff] on a sample. *)
Definition htmlSample (s : list ascii) : bool :=
  GoStrings.Contains (GoStrings.ToLower s) (bytes "<html")
  || GoStrings.Contains (GoStrings.ToLower s) (bytes "<!doctype").

(** An error page: a document type line, then padding. *)
Definition errorPage : list ascii :=
  bytes "<!DOCTYPE html>" ++ [LF] ++ rules300.

Definition offA : filter := setEnabled false listA.

(** * Properties *)

(** ** The filter store *)

Lemma existsb_hasURL url fs :
  existsb (fun f => bool_decide (URL f = url)) fs = true ↔ hasURL url fs.
Proof.
  rewrite existsb_exists. unfold hasURL. split.
  - intros (g & Hin & Hg). exists g. split; [by apply list_elem_of_In|].
    by apply bool_decide_eq_true in Hg.
  - intros (g & Hin & Hg). exists g. split; [by apply list_elem_of_In|].
    by apply bool_decide_eq_true.
Qed.

Lemma hasURL_app url fs gs : hasURL url (fs ++ gs) ↔ hasURL url fs ∨ hasURL url gs.
Proof.
  unfold hasURL. split.
  - intros (g & [Hin|Hin]%elem_of_app & Hg); [left|right]; eauto.
  - intros [(g & Hin & Hg)|(g & Hin & Hg)]; exists g; rewrite elem_of_app; eauto.
Qed.

Lemma filterExistsNoLock_spec c url :
  filterExistsNoLock c url = true ↔ hasURL url (Filters c ++ WhitelistFilters c).
Proof.
  unfold filterExistsNoLock.
  rewrite orb_true_iff, !existsb_hasURL, hasURL_app. tauto.
Qed.

Lemma filterExistsNoLock_false c url :
  filterExistsNoLock c url = false ↔ ¬ hasURL url (Filters c ++ WhitelistFilters c).
Proof.
  rewrite <- filterExistsNoLock_spec. destruct (filterExistsNoLock c url); split; congruence.
Qed.

(** C4. [filterAdd f] on a store in which some filter of the block-list or
    of the allow-list collection already has the URL of [f] returns [false]
    and the store as it was; on any other store it returns [true] and the
    store with [f] appended to the collection its [white] tag selects, the
    other collection being as it was. *)
Theorem filterAdd_unique_or_appended (f : filter) (c : configuration) :
  (hasURL (URL f) (Filters c ++ WhitelistFilters c)
   ∧ filterAdd f c = (c, false))
  ∨ (¬ hasURL (URL f) (Filters c ++ WhitelistFilters c)
     ∧ ∃ c', filterAdd f c = (c', true)
        ∧ selected (white f) c' = selected (white f) c ++ [f]
        ∧ selected (negb (white f)) c' = selected (negb (white f)) c
        ∧ FiltersUpdateIntervalHours c' = FiltersUpdateIntervalHours c
        ∧ FilteringEnabled c' = FilteringEnabled c
        ∧ UserRules c' = UserRules c).
Proof.
  unfold filterAdd.
  destruct (filterExistsNoLock c (URL f)) eqn:Hex.
  - left. split; [by apply filterExistsNoLock_spec | done].
  - right. split; [by apply filterExistsNoLock_false |].
    destruct (white f); eexists; split; try reflexivity; by destruct c.
Qed.

(** Storing a filter that differs from the one at [i] in fields other than
    the URL does not change which URLs are taken. *)
Lemma existsb_url_map url (fs : list filter) :
  existsb (fun f => bool_decide (URL f = url)) fs
  = existsb (fun u => bool_decide (u = url)) (map URL fs).
Proof. induction fs as [|f fs IH]; simpl; [done | by rewrite IH]. Qed.

Lemma map_URL_insert (fs : list filter) i f g :
  fs !! i = Some f → URL g = URL f → map URL (<[i := g]> fs) = map URL fs.
Proof.
  intros Hi Hg. rewrite list_fmap_insert, Hg.
  apply list_insert_id. by rewrite list_lookup_fmap, Hi.
Qed.

Lemma filterExistsNoLock_store whitelist c i f g url :
  selected whitelist c !! i = Some f → URL g = URL f →
  filterExistsNoLock (setSelected whitelist (<[i := g]> (selected whitelist c)) c) url
  = filterExistsNoLock c url.
Proof.
  intros Hi Hg. unfold filterExistsNoLock.
  destruct whitelist; simpl in *; rewrite !existsb_url_map;
    by erewrite map_URL_insert.
Qed.

Lemma selected_setSelected whitelist v c :
  selected whitelist (setSelected whitelist v c) = v.
Proof. by destruct whitelist. Qed.

Lemma store_store whitelist c i (g h : filter) :
  setSelected whitelist
    (<[i := h]> (selected whitelist
                   (setSelected whitelist (<[i := g]> (selected whitelist c)) c)))
    (setSelected whitelist (<[i := g]> (selected whitelist c)) c)
  = setSelected whitelist (<[i := h]> (selected whitelist c)) c.
Proof.
  rewrite selected_setSelected, list_insert_insert_eq. by destruct whitelist.
Qed.

Lemma load_Name f d : Name (fst (load f d)) = Name f.
Proof.
  unfold load. destruct (d !! ID f); [|done].
  by destruct (parseFilterContents _) as [[? ?] ?].
Qed.

(** The second half of [filterSetProperties], after the URL is settled: [g]
    is the filter so far, [r0] the flags so far (URL flags or none). *)
Lemma enable_part whitelist c i (g0 g : filter) newf d r0 :
  Name g = Name newf →
  r0 = 0 ∨ r0 = Z.lor 0 (Z.lor statusURLChanged statusUpdateRequired) →
  ∃ f' r,
    (let '(f1, r1) :=
       if bool_decide (Enabled g ≠ Enabled newf) then
         if Enabled (setEnabled (Enabled newf) g) then
           if Z.land (Z.lor r0 statusEnabledChanged) statusURLChanged =? 0 then
             let '(f', e) := load (setEnabled (Enabled newf) g) d in
             if e then
               (setRulesCount 0 (setChecksum 0 (setLastUpdated zeroTime f')),
                Z.lor (Z.lor r0 statusEnabledChanged) statusUpdateRequired)
             else (f', Z.lor r0 statusEnabledChanged)
           else (setEnabled (Enabled newf) g, Z.lor r0 statusEnabledChanged)
         else (unload (setEnabled (Enabled newf) g), Z.lor r0 statusEnabledChanged)
       else (g, r0) in
     (setSelected whitelist
        (<[i := f1]> (selected whitelist
                        (setSelected whitelist (<[i := g0]> (selected whitelist c)) c)))
        (setSelected whitelist (<[i := g0]> (selected whitelist c)) c),
      Z.lor r1 statusFound))
    = (setSelected whitelist (<[i := f']> (selected whitelist c)) c, r)
    ∧ Name f' = Name newf
    ∧ Z.land r statusFound = statusFound
    ∧ Z.land r statusURLExists = 0.
Proof.
  intros Hname Hr0.
  match goal with
  | |- context [let '(_, _) := ?X in _] => destruct X as [f1 r1] eqn:E
  end.
  exists f1, (Z.lor r1 statusFound). rewrite store_store. split; [done|].
  pose proof (load_Name (setEnabled (Enabled newf) g) d) as Hload.
  destruct (load (setEnabled (Enabled newf) g) d) as [f' e].
  simpl in Hload.
  destruct Hr0 as [-> | ->];
    repeat case_bool_decide; repeat (case_match; simplify_eq/=);
    simplify_eq/=; rewrite ?Hload; done.
Qed.

Lemma located_iff url whitelist c :
  (∃ i f, located url whitelist c i f) ↔ hasURL url (selected whitelist c).
Proof.
  unfold located, hasURL. split.
  - intros (i & f & (Hi & Hf & _)%list_find_Some). exists f. split; [|done].
    by eapply list_elem_of_lookup_2.
  - intros (g & Hin & Hg).
    destruct (list_find (fun f => URL f = url) (selected whitelist c))
      as [[i f]|] eqn:Hfind; [eauto|].
    rewrite list_find_None, Forall_forall in Hfind. by destruct (Hfind g Hin).
Qed.

(** [filterSetProperties] case by case. *)
Lemma filterSetProperties_cases url newf whitelist c d :
  (¬ hasURL url (selected whitelist c)
   ∧ filterSetProperties url newf whitelist c d = (c, 0))
  ∨ (∃ i f, located url whitelist c i f ∧ collides url newf c
       ∧ filterSetProperties url newf whitelist c d
         = (setSelected whitelist (<[i := setName (Name newf) f]> (selected whitelist c)) c,
            statusURLExists))
  ∨ (∃ i f, located url whitelist c i f ∧ ¬ collides url newf c
       ∧ ∃ f' r, filterSetProperties url newf whitelist c d
                 = (setSelected whitelist (<[i := f']> (selected whitelist c)) c, r)
          ∧ Name f' = Name newf
          ∧ Z.land r statusFound = statusFound
          ∧ Z.land r statusURLExists = 0).
Proof.
  unfold filterSetProperties.
  destruct (list_find (fun f => URL f = url) (selected whitelist c))
    as [[i f]|] eqn:Hfind.
  - pose proof Hfind as (Hi & Hf & _)%list_find_Some.
    assert (Hex : ∀ u,
      filterExistsNoLock
        (setSelected whitelist (<[i := setName (Name newf) f]> (selected whitelist c)) c) u
      = filterExistsNoLock c u) by (intros u; by eapply filterExistsNoLock_store).
    rewrite Hex. simpl URL. rewrite Hf.
    right. destruct (decide (url = URL newf)) as [Heq|Hne].
    + right. exists i, f. split; [done|]. split; [by intros [? _]|].
      rewrite bool_decide_eq_false_2 by (by intros []). simpl andb. cbv iota zeta beta.
      apply (enable_part whitelist c i (setName (Name newf) f)
               (setName (Name newf) f) newf d 0); [done | by left].
    + rewrite bool_decide_eq_true_2 by done. simpl andb.
      destruct (filterExistsNoLock c (URL newf)) eqn:Hdup.
      * left. exists i, f. split; [done|]. split; [|done].
        split; [done|]. by apply filterExistsNoLock_spec.
      * right. exists i, f. split; [done|].
        split; [intros [_ H]; by apply filterExistsNoLock_false in Hdup|].
        cbv zeta beta.
        apply (enable_part whitelist c i (setName (Name newf) f)
                 (setRulesCount 0 (setChecksum 0 (setLastUpdated zeroTime
                    (unload (setURL (URL newf) (setName (Name newf) f))))))
                 newf d (Z.lor 0 (Z.lor statusURLChanged statusUpdateRequired)));
          [done | by right].
  - left. split; [|done].
    intros (i & f & Hl)%located_iff. unfold located in Hl. congruence.
Qed.

(** C6 (amended). The status of [filterSetProperties] falls in exactly one
    of three cases. No filter of the selected collection has the URL: the
    status is 0, the plain not-found signal. A filter is located and the
    URL change collides with a URL in use: the status is exactly
    [statusURLExists], which is not 0 and does not include [statusFound].
    A filter is located and there is no collision: the status includes
    [statusFound] and does not include [statusURLExists]. So the status is 0
    exactly when no filter is located. *)
Theorem setProperties_status (url : string) (newf : filter) (whitelist : bool)
    (c : configuration) (d : disk) :
  let r := snd (filterSetProperties url newf whitelist c d) in
  (¬ hasURL url (selected whitelist c) ∧ r = 0)
  ∨ (hasURL url (selected whitelist c) ∧ collides url newf c
     ∧ r = statusURLExists ∧ r ≠ 0 ∧ Z.land r statusFound = 0)
  ∨ (hasURL url (selected whitelist c) ∧ ¬ collides url newf c
     ∧ Z.land r statusFound = statusFound ∧ Z.land r statusURLExists = 0 ∧ r ≠ 0).
Proof.
  destruct (filterSetProperties_cases url newf whitelist c d)
    as [[Hno ->] | [(i & f & Hloc & Hcol & ->) | (i & f & Hloc & Hcol & f' & r & -> & _ & Hfound & Hex)]];
    simpl.
  - by left.
  - right; left. split; [apply located_iff; eauto|]. done.
  - right; right. split; [apply located_iff; eauto|].
    repeat split; try done. intros ->. done.
Qed.

(** C6, the claim as written fails: the filter with the URL of [listA] is
    located, the new URL is the one of [listB], and the status returned is
    8, without the found flag. *)
Lemma setProperties_found_flag_counterexample :
  hasURL "http://a/list.txt" (selected false twoLists)
  ∧ snd (filterSetProperties "http://a/list.txt"
           (setName "renamed" listB) false twoLists ∅) = 8
  ∧ Z.land (snd (filterSetProperties "http://a/list.txt"
                   (setName "renamed" listB) false twoLists ∅)) statusFound
    ≠ statusFound.
Proof.
  split; [|split].
  - exists listA. split; [apply list_elem_of_here | done].
  - by vm_compute.
  - by vm_compute.
Qed.

(** C10. When [filterSetProperties] locates a filter at index [i], the filter
    at [i] afterwards carries the new name, whatever the status; and when the
    URL change collides with a URL in use, the status is [statusURLExists]
    and the store afterwards is the store before with the name of the
    located filter overwritten, nothing else changed. *)
Theorem setProperties_name_written_first (url : string) (newf : filter)
    (whitelist : bool) (c : configuration) (d : disk) (i : nat) (f : filter) :
  located url whitelist c i f →
  (∃ f', selected whitelist (fst (filterSetProperties url newf whitelist c d)) !! i = Some f'
         ∧ Name f' = Name newf)
  ∧ (collides url newf c →
     filterSetProperties url newf whitelist c d
     = (setSelected whitelist (<[i := setName (Name newf) f]> (selected whitelist c)) c,
        statusURLExists)).
Proof.
  intros Hloc.
  pose proof Hloc as (Hi%lookup_lt_Some & _)%list_find_Some.
  destruct (filterSetProperties_cases url newf whitelist c d)
    as [[Hno _] | [(i' & f' & Hloc' & Hcol & ->) | (i' & f' & Hloc' & Hcol & g & r & -> & Hname & _)]].
  - destruct Hno. apply located_iff; eauto.
  - unfold located in *. simplify_eq. split; [|done].
    exists (setName (Name newf) f). simpl.
    by rewrite selected_setSelected, list_lookup_insert_eq.
  - unfold located in *. simplify_eq. split; [|done].
    exists g. simpl. by rewrite selected_setSelected, list_lookup_insert_eq.
Qed.

Lemma setProperties_name_written_first_witness :
  located "http://a/list.txt" false twoLists 0 listA
  ∧ collides "http://a/list.txt" (setName "renamed" listB) twoLists
  ∧ filterSetProperties "http://a/list.txt" (setName "renamed" listB) false twoLists ∅
    = (mkConfig [setName "renamed" listA; listB] [] 24 true [], statusURLExists).
Proof.
  assert (Hloc : located "http://a/list.txt" false twoLists 0 listA) by (by vm_compute).
  assert (Hcol : collides "http://a/list.txt" (setName "renamed" listB) twoLists).
  { split; [done|]. exists listB. split; [|done]. apply list_elem_of_further, list_elem_of_here. }
  split; [done|]. split; [done|].
  exact (proj2 (setProperties_name_written_first "http://a/list.txt"
                  (setName "renamed" listB) false twoLists ∅ 0 listA Hloc) Hcol).
Defined.

(** ** The single-flight guard *)


(** ** The scheduler *)

Lemma wrap64_small x : - 2 ^ 63 ≤ x < 2 ^ 63 → wrap64 x = x.
Proof.
  intros H. unfold wrap64.
  rewrite Z.mod_small by lia. lia.
Qed.

Lemma tick_interval envB envW intval s :
  0 ≤ intval ≤ maxInterval →
  fst (fst (tick envB envW intval s))
  = match cycleOutcome envB envW s with
    | Some true => Z.min (2 * intval) maxInterval
    | Some false => maxInterval
    | None => intval
    end.
Proof.
  intros Hi. unfold tick, cycleOutcome, maxInterval in *.
  destruct (negb (FiltersUpdateIntervalHours (config s) =? 0)); [|done].
  destruct (compareAndSwap s) as [[] s1]; [|done].
  destruct (refreshFiltersIfNecessary _ _ _ _) as [[n []] s2]; simpl; [|done].
  rewrite wrap64_small by lia.
  destruct (intval * 2 >? 1 * 60 * 60) eqn:E; lia.
Qed.

Lemma tick_bounds envB envW intval s :
  initialInterval ≤ intval ≤ maxInterval →
  initialInterval ≤ fst (fst (tick envB envW intval s)) ≤ maxInterval.
Proof.
  intros Hi. rewrite tick_interval by (unfold initialInterval in *; lia).
  unfold initialInterval, maxInterval in *.
  destruct (cycleOutcome envB envW s) as [[]|]; lia.
Qed.

Lemma schedule_bounds turns intval :
  initialInterval ≤ intval ≤ maxInterval →
  Forall (fun i => initialInterval ≤ i ≤ maxInterval) (schedule turns intval).
Proof.
  revert intval. induction turns as [|[[envB envW] s] turns IH]; intros intval Hi.
  - constructor.
  - simpl. pose proof (tick_bounds envB envW intval s Hi). constructor; auto.
Qed.

Lemma fold_tick_bounds turns intval :
  initialInterval ≤ intval ≤ maxInterval →
  initialInterval
  ≤ fold_left (fun intval '(envB, envW, s) => fst (fst (tick envB envW intval s)))
      turns intval
  ≤ maxInterval.
Proof.
  revert intval. induction turns as [|[[envB envW] s] turns IH]; intros i Hi; [done|].
  simpl. apply IH. by apply tick_bounds.
Qed.

Lemma intervalAfter_bounds turns :
  initialInterval ≤ intervalAfter turns ≤ maxInterval.
Proof.
  apply fold_tick_bounds. unfold initialInterval, maxInterval. lia.
Qed.

Lemma schedule_failures_monotone fails intval :
  initialInterval ≤ intval ≤ maxInterval →
  Forall totalFailure fails →
  ∀ j a b, (intval :: schedule fails intval) !! j = Some a →
           (intval :: schedule fails intval) !! S j = Some b → a ≤ b.
Proof.
  intros Hi Hf. revert intval Hi.
  induction Hf as [|[[envB envW] s] fails Hx Hf IH]; intros intval Hi j a b Ha Hb.
  - destruct j; simplify_eq/=.
  - simpl in Hx. simpl in Ha, Hb.
    pose proof (tick_bounds envB envW intval s Hi) as Hb'.
    pose proof (tick_interval envB envW intval s) as Ht.
    rewrite Hx in Ht.
    destruct j as [|j].
    + simplify_eq/=. rewrite Ht by (unfold initialInterval in *; lia).
      unfold initialInterval, maxInterval in *. lia.
    + simpl in Ha. eapply (IH _ Hb' j); [exact Ha | exact Hb].
Qed.

(** C7. Let [i] be the interval in force after any number of turns of the
    periodic loop from the initial interval, whatever the turns met. Then
    [i] lies between the initial interval and the ceiling. The next turn
    sleeps: the double of [i] capped at the ceiling, which is not less than
    [i], when its cycle completes and reports total network failure; the
    ceiling when its cycle completes and reports anything else; [i] again
    when it runs no cycle. And over any run of turns that all report total
    network failure the intervals slept never decrease. *)
Theorem scheduler_backoff (turns : list (Env * Env * state)) (envB envW : Env)
    (s : state) :
  let i := intervalAfter turns in
  let next := fst (fst (tick envB envW i s)) in
  initialInterval ≤ i ≤ maxInterval
  ∧ match cycleOutcome envB envW s with
    | Some true => next = Z.min (2 * i) maxInterval ∧ i ≤ next ≤ maxInterval
    | Some false => next = maxInterval
    | None => next = i
    end
  ∧ ∀ fails, Forall totalFailure fails →
      ∀ j a b, (i :: schedule fails i) !! j = Some a →
               (i :: schedule fails i) !! S j = Some b → a ≤ b ≤ maxInterval.
Proof.
  intros i next. pose proof (intervalAfter_bounds turns) as Hi. fold i in Hi.
  split; [done|]. split.
  - subst next. rewrite tick_interval by (unfold initialInterval in *; lia).
    unfold initialInterval, maxInterval in *.
    destruct (cycleOutcome envB envW s) as [[]|]; lia.
  - intros fails Hf j a b Ha Hb. split.
    + by eapply (schedule_failures_monotone fails i Hi Hf j).
    + simpl in Hb. apply list_elem_of_lookup_2 in Hb.
      pose proof (schedule_bounds fails i Hi) as Hall.
      rewrite Forall_forall in Hall. by apply Hall.
Qed.

Lemma scheduler_backoff_witness :
  cycleOutcome outage outage idle = Some true
  ∧ schedule (replicate 11 (outage, outage, idle)) initialInterval
    = [10; 20; 40; 80; 160; 320; 640; 1280; 2560; 3600; 3600]
  ∧ ∀ j a b,
      (initialInterval :: schedule (replicate 11 (outage, outage, idle)) initialInterval) !! j
      = Some a →
      (initialInterval :: schedule (replicate 11 (outage, outage, idle)) initialInterval) !! S j
      = Some b →
      a ≤ b ≤ maxInterval.
Proof.
  assert (Hfail : totalFailure (outage, outage, idle)) by (by vm_compute).
  split; [exact Hfail|]. split; [by vm_compute|].
  apply (proj2 (proj2 (scheduler_backoff [] outage outage idle))).
  by repeat constructor.
Defined.

(** ** Startup and identifiers *)

Lemma load_ID f d : ID (fst (load f d)) = ID f.
Proof.
  unfold load. destruct (d !! ID f); [|done].
  by destruct (parseFilterContents _) as [[? ?] ?].
Qed.

Lemma loadFilters_ids fs next d :
  (map ID (fst (loadFilters fs next d)), snd (loadFilters fs next d))
  = assignIds (map ID fs) next.
Proof.
  revert next. induction fs as [|f fs IH]; intros next; [done|].
  simpl. unfold assignUniqueFilterID.
  destruct (ID f =? 0); simpl.
  - specialize (IH (wrap64 (next + 1))).
    destruct (loadFilters fs _ d) as [fs' n'], (assignIds _ _) as [ids' m'].
    simpl in *. simplify_eq. by destruct (Enabled f); rewrite ?load_ID.
  - specialize (IH next).
    destruct (loadFilters fs _ d) as [fs' n'], (assignIds _ _) as [ids' m'].
    simpl in *. simplify_eq. by destruct (Enabled f); rewrite ?load_ID.
Qed.

Lemma assignIds_app ids1 ids2 next :
  assignIds (ids1 ++ ids2) next
  = let '(r1, n1) := assignIds ids1 next in
    let '(r2, n2) := assignIds ids2 n1 in
    (r1 ++ r2, n2).
Proof.
  revert next. induction ids1 as [|x ids1 IH]; intros next; simpl.
  - by destruct (assignIds ids2 next).
  - destruct (if x =? 0 then _ else _) as [x' n']. rewrite IH.
    destruct (assignIds ids1 n') as [r1 n1], (assignIds ids2 n1) as [r2 n2]. done.
Qed.

Lemma elem_of_persisted x ids : x ∈ persisted ids ↔ x ∈ ids ∧ x ≠ 0.
Proof.
  unfold persisted. rewrite !list_elem_of_In, filter_In, negb_true_iff, Z.eqb_neq. done.
Qed.

Lemma assignIds_distinct ids next :
  NoDup (persisted ids) →
  (∀ x, x ∈ persisted ids → ¬ (next ≤ x < next + unassigned ids)) →
  - 2 ^ 63 ≤ next → next + unassigned ids < 2 ^ 63 →
  NoDup (fst (assignIds ids next))
  ∧ ∀ y, y ∈ fst (assignIds ids next) →
         y ∈ persisted ids ∨ next ≤ y < next + unassigned ids.
Proof.
  revert next. induction ids as [|x ids IH]; intros next Hnd Hout Hlo Hhi.
  - simpl. split; [constructor | intros y Hy; by apply elem_of_nil in Hy].
  - simpl. unfold assignUniqueFilterID. destruct (x =? 0) eqn:Hx.
    + assert (Hk : unassigned (x :: ids) = 1 + unassigned ids).
      { unfold unassigned. simpl. rewrite Hx. simpl. lia. }
      assert (Hp : persisted (x :: ids) = persisted ids).
      { unfold persisted. simpl. by rewrite Hx. }
      rewrite Hk, Hp in *.
      assert (0 ≤ unassigned ids) by (unfold unassigned; lia).
      rewrite wrap64_small by lia.
      destruct (IH (next + 1)) as [IH1 IH2]; [done | | lia | lia |].
      { intros y Hy Hr. apply (Hout y Hy). lia. }
      destruct (assignIds ids (next + 1)) as [r n']. simpl in *. split.
      * apply NoDup_cons_2; [|done]. intros Hin.
        destruct (IH2 _ Hin) as [Hy|Hy]; [|lia]. apply (Hout _ Hy). lia.
      * intros y [->|Hy]%elem_of_cons; [right; lia|].
        destruct (IH2 _ Hy) as [?|?]; [by left | right; lia].
    + assert (Hk : unassigned (x :: ids) = unassigned ids).
      { unfold unassigned. simpl. by rewrite Hx. }
      assert (Hp : persisted (x :: ids) = x :: persisted ids).
      { unfold persisted. simpl. by rewrite Hx. }
      rewrite Hk, Hp in *. apply NoDup_cons in Hnd as [Hnin Hnd].
      destruct (IH next) as [IH1 IH2]; [done | | done | done |].
      { intros y Hy. apply Hout. by apply elem_of_cons; right. }
      destruct (assignIds ids next) as [r n']. simpl in *. split.
      * apply NoDup_cons_2; [|done]. intros Hin.
        destruct (IH2 _ Hin) as [Hy|Hy]; [done|].
        apply (Hout x); [apply list_elem_of_here | done].
      * intros y [->|Hy]%elem_of_cons; [left; apply list_elem_of_here|].
        destruct (IH2 _ Hy) as [?|?]; [left; by apply elem_of_cons; right | by right].
Qed.

Lemma dedupLoop_sublist fs urls : dedupLoop fs urls `sublist_of` fs.
Proof.
  revert urls. induction fs as [|f fs IH]; intros urls; simpl; [constructor|].
  destruct (urls !! URL f); [by apply sublist_cons | by apply sublist_skip].
Qed.

(** C9 (amended). If the non-zero identifiers that come with the two
    collections are pairwise distinct, none of them lies among the values
    the counter is about to hand out (from its starting value on, one per
    filter that comes with identifier 0), and the counter does not overflow,
    then after [initFiltering] the identifiers are pairwise distinct across
    the union of the two collections. *)
Theorem initFiltering_ids_distinct (c : configuration) (seed : Z) (d : disk) :
  NoDup (persisted (allIDs c)) →
  (∀ x, x ∈ persisted (allIDs c) → ¬ (seed ≤ x < seed + unassigned (allIDs c))) →
  - 2 ^ 63 ≤ seed → seed + unassigned (allIDs c) < 2 ^ 63 →
  NoDup (allIDs (fst (initFiltering c seed d))).
Proof.
  intros Hnd Hout Hlo Hhi.
  destruct (assignIds_distinct (allIDs c) seed Hnd Hout Hlo Hhi) as [Hres _].
  unfold allIDs in Hres. rewrite map_app, assignIds_app in Hres.
  unfold initFiltering.
  pose proof (loadFilters_ids (Filters c) seed d) as HF.
  destruct (loadFilters (Filters c) seed d) as [fs n1]. simpl in HF.
  rewrite <- HF in Hres.
  pose proof (loadFilters_ids (WhitelistFilters c) n1 d) as HW.
  change (WhitelistFilters (setFilters fs c)) with (WhitelistFilters c).
  destruct (loadFilters (WhitelistFilters c) n1 d) as [ws n2]. simpl in HW.
  rewrite <- HW in Hres. simpl in Hres.
  unfold allIDs. simpl.
  eapply sublist_NoDup; [exact Hres|].
  rewrite map_app. apply sublist_app; [|done].
  apply fmap_sublist, dedupLoop_sublist.
Qed.

(** C9, the claim as written fails: two filters that come with the same
    identifier keep it. *)
Lemma initFiltering_ids_counterexample :
  allIDs (fst (initFiltering sameId 1600000000 ∅)) = [7; 7]
  ∧ ¬ NoDup (allIDs (fst (initFiltering sameId 1600000000 ∅))).
Proof.
  split; [by vm_compute|].
  replace (allIDs _) with [7; 7] by (by vm_compute).
  intros [Hnin _]%NoDup_cons. apply Hnin, list_elem_of_here.
Qed.

Lemma initFiltering_ids_distinct_witness :
  allIDs (fst (initFiltering fresh 1600000000 ∅)) = [1600000000; 12; 1600000001]
  ∧ NoDup (allIDs (fst (initFiltering fresh 1600000000 ∅))).
Proof.
  split; [by vm_compute|].
  apply (initFiltering_ids_distinct fresh 1600000000 ∅).
  - replace (persisted (allIDs fresh)) with [12] by (by vm_compute).
    apply NoDup_singleton.
  - replace (persisted (allIDs fresh)) with [12] by (by vm_compute).
    replace (unassigned (allIDs fresh)) with 2 by (by vm_compute).
    intros x ->%list_elem_of_singleton. lia.
  - lia.
  - replace (unassigned (allIDs fresh)) with 2 by (by vm_compute). lia.
Defined.

(** ** One fetch *)

Lemma updateIntl_results uf w d :
  (updateIntl uf w d).1 = (updateIntl uf w ∅).1.
Proof.
  unfold updateIntl.
  destruct (w_tempFileErr w); [done|].
  destruct (w_resp w) as [|code body]; [done|].
  destruct (negb (code =? 200)); [done|].
  destruct (readAll _ _ _ _) as [[e ?]|st]; [done|].
  destruct (parseFilterContents _) as [[n sum] name].
  destruct (checksum uf =? sum); [done|].
  by destruct (w_renameErr w).
Qed.

Lemma update_results uf w d :
  (update uf w d).1 = (fetched uf w, changed uf w, fetchErr uf w).
Proof.
  unfold fetched, changed, fetchErr, update.
  pose proof (updateIntl_results uf w d) as H.
  destruct (updateIntl uf w d) as [[[f b] e] d'],
           (updateIntl uf w ∅) as [[[f0 b0] e0] d0].
  simpl in *. by simplify_eq.
Qed.

(** [updateIntl] never touches the identity of the filter, and reports a
    change only without an error. *)
Lemma updateIntl_inv uf w d :
  let '(f, b, e, _) := updateIntl uf w d in
  ID f = ID uf ∧ URL f = URL uf ∧ Enabled f = Enabled uf
  ∧ (b = true → e = None)
  ∧ (b = false → e = None → f = uf).
Proof.
  unfold updateIntl.
  destruct (w_tempFileErr w); [done|].
  destruct (w_resp w) as [|code body]; [done|].
  destruct (negb (code =? 200)); [done|].
  destruct (readAll _ _ _ _) as [[e ?]|st]; [done|].
  destruct (parseFilterContents _) as [[n sum] name].
  destruct (checksum uf =? sum); [done|].
  destruct (w_renameErr w); by case_bool_decide.
Qed.

Lemma fetched_ID uf w : ID (fetched uf w) = ID uf.
Proof.
  unfold fetched, update. pose proof (updateIntl_inv uf w ∅) as H.
  destruct (updateIntl uf w ∅) as [[[f b] e] d]. simpl. tauto.
Qed.

Lemma fetched_URL uf w : URL (fetched uf w) = URL uf.
Proof.
  unfold fetched, update. pose proof (updateIntl_inv uf w ∅) as H.
  destruct (updateIntl uf w ∅) as [[[f b] e] d]. simpl. tauto.
Qed.

Lemma fetched_LastUpdated uf w : LastUpdated (fetched uf w) = w_now w.
Proof.
  unfold fetched, update. by destruct (updateIntl uf w ∅) as [[[f b] e] d].
Qed.

Lemma failed_not_changed uf w : fetchErr uf w ≠ None → changed uf w = false.
Proof.
  unfold fetchErr, changed, update. pose proof (updateIntl_inv uf w ∅) as H.
  destruct (updateIntl uf w ∅) as [[[f b] e] d]. simpl.
  destruct b; [|done]. intros He. destruct H as (_ & _ & _ & H & _). by destruct He; apply H.
Qed.

(** ** One pass over a collection *)

Lemma results_cons uf ufs fetch i :
  results (uf :: ufs) fetch i
  = (fetched uf (fetch i), changed uf (fetch i)) :: results ufs fetch (S i).
Proof.
  unfold results. simpl. rewrite Nat.add_0_r. f_equal.
  apply imap_ext. intros j x _. unfold compose. cbv beta.
  by replace (i + S j)%nat with (S (i + j)) by lia.
Qed.

Lemma failures_cons uf ufs fetch i :
  failures (uf :: ufs) fetch i
  = if fetchErr uf (fetch i) is Some _
    then S (failures ufs fetch (S i)) else failures ufs fetch (S i).
Proof.
  unfold failures. simpl. rewrite Nat.add_0_r.
  rewrite (imap_ext _ (fun j uf => bool_decide (fetchErr uf (fetch (S i + j)%nat) ≠ None))).
  - destruct (fetchErr uf (fetch i)) eqn:E.
    + by rewrite bool_decide_eq_true_2.
    + by rewrite bool_decide_eq_false_2 by (by intros []).
  - intros j x _. unfold compose. cbv beta.
    by replace (i + S j)%nat with (S i + j)%nat by lia.
Qed.

Lemma fetchAll_results ufs fetch i d :
  let '(ufs', flags, nfail, _) := fetchAll ufs fetch i d in
  ufs' = (results ufs fetch i).*1 ∧ flags = (results ufs fetch i).*2
  ∧ nfail = failures ufs fetch i.
Proof.
  revert i d. induction ufs as [|uf ufs IH]; intros i d; [done|].
  rewrite results_cons, failures_cons.
  simpl. pose proof (update_results uf (fetch i) d) as Hu.
  destruct (update uf (fetch i) d) as [[[f b] e] d1]. simpl in Hu.
  specialize (IH (S i) d1).
  destruct (fetchAll ufs fetch (S i) d1) as [[[ufs' flags] nfail] d2].
  destruct IH as (-> & -> & ->). by simplify_eq.
Qed.

Lemma commit_filters ufs flags filters n :
  (commit ufs flags filters n).1 = map (mergeAll (zip ufs flags)) filters.
Proof.
  revert flags filters n. induction ufs as [|uf ufs IH]; intros flags filters n.
  - simpl. by rewrite map_id.
  - destruct flags as [|b flags]; simpl; [by rewrite map_id|].
    rewrite IH, map_map. done.
Qed.

Lemma count_true_le (l : list bool) :
  (length (List.filter (fun b : bool => b) l) ≤ length l)%nat.
Proof. induction l as [|[] l IH]; simpl; lia. Qed.

Lemma count_true_lt (l : list bool) j :
  l !! j = Some false → (length (List.filter (fun b : bool => b) l) < length l)%nat.
Proof.
  revert j. induction l as [|b l IH]; intros j Hj; [done|].
  destruct j as [|j]; simpl in *.
  - simplify_eq. simpl. pose proof (count_true_le l). lia.
  - specialize (IH j Hj). destruct b; simpl; lia.
Qed.

Lemma failures_lt ufs fetch j uf :
  ufs !! j = Some uf → fetchErr uf (fetch j) = None →
  (failures ufs fetch 0 < length ufs)%nat.
Proof.
  intros Hj He. unfold failures.
  rewrite <- (length_imap (fun j uf => bool_decide (fetchErr uf (fetch (0 + j)%nat) ≠ None)) ufs).
  apply (count_true_lt _ j).
  rewrite list_lookup_imap, Hj. simpl. rewrite He.
  by rewrite bool_decide_eq_false_2 by (by intros []).
Qed.

Lemma results_lookup ufs fetch j :
  results ufs fetch 0 !! j
  = (fun uf => (fetched uf (fetch j), changed uf (fetch j))) <$> ufs !! j.
Proof. unfold results. by rewrite list_lookup_imap. Qed.

Lemma length_results ufs fetch i : length (results ufs fetch i) = length ufs.
Proof. unfold results. apply length_imap. Qed.

(** The live collection after [refreshFiltersArray]. *)
Lemma refreshFiltersArray_filters filters force hours env d :
  let ufs := snapshot force (e_now env) hours filters in
  (refreshFiltersArray filters force hours env d).1.2
  = if bool_decide (failures ufs (e_fetch env) 0 = length ufs) then filters
    else map (mergeAll (results ufs (e_fetch env) 0)) filters.
Proof.
  intros ufs. unfold refreshFiltersArray. fold ufs.
  case_bool_decide as Hlen.
  - apply length_zero_iff_nil in Hlen. rewrite Hlen. done.
  - pose proof (fetchAll_results ufs (e_fetch env) 0 d) as Hf.
    destruct (fetchAll ufs (e_fetch env) 0 d) as [[[ufs' flags] nfail] d'].
    destruct Hf as (-> & -> & ->).
    rewrite !length_fmap, length_results.
    case_bool_decide; [done|].
    pose proof (commit_filters (results ufs (e_fetch env) 0).*1
                  (results ufs (e_fetch env) 0).*2 filters 0) as Hc.
    destruct (commit _ _ _ _) as [fs n]. simpl in *.
    by rewrite Hc, zip_fst_snd.
Qed.

Lemma setLastUpdated_same f : setLastUpdated (LastUpdated f) f = f.
Proof. by destruct f. Qed.

Lemma sameFilter_merge uf' uf b f : sameFilter uf' (merge uf b f) = sameFilter uf' f.
Proof. unfold merge. destruct (sameFilter uf f), b; done. Qed.

Lemma sameFilter_mergeAll uf' res f : sameFilter uf' (mergeAll res f) = sameFilter uf' f.
Proof.
  revert f. induction res as [|[uf b] res IH]; intros f; [done|].
  simpl. fold (mergeAll res (merge uf b f)). by rewrite IH, sameFilter_merge.
Qed.

(** Entries committed without the changed flag leave everything but
    [LastUpdated] as it was. *)
Lemma mergeAll_frame res f :
  (∀ uf b, (uf, b) ∈ res → sameFilter uf f = true → b = false) →
  mergeAll res f = setLastUpdated (LastUpdated (mergeAll res f)) f.
Proof.
  revert f. induction res as [|[uf b] res IH]; intros f Hres.
  - simpl. by rewrite setLastUpdated_same.
  - simpl. fold (mergeAll res (merge uf b f)).
    rewrite IH at 1.
    2:{ intros uf' b' Hin Hs. rewrite sameFilter_merge in Hs.
        apply (Hres uf' b'); [by apply elem_of_cons; right | done]. }
    unfold merge at 2. destruct (sameFilter uf f) eqn:Hs; [|done].
    rewrite (Hres uf b (list_elem_of_here _ _) Hs). by destruct f.
Qed.

(** A live filter matched by some snapshot entry ends with the
    [LastUpdated] of the last entry that matches it. *)
Lemma mergeAll_LastUpdated res f j0 uf0 b0 :
  res !! j0 = Some (uf0, b0) → sameFilter uf0 f = true →
  ∃ j uf b, res !! j = Some (uf, b) ∧ sameFilter uf f = true
            ∧ LastUpdated (mergeAll res f) = LastUpdated uf.
Proof.
  revert j0 uf0 b0. induction res as [|[uf b] res IH] using rev_ind;
    intros j0 uf0 b0 Hj Hs; [done|].
  unfold mergeAll. rewrite fold_left_app. simpl. fold (mergeAll res f).
  destruct (sameFilter uf f) eqn:Hlast.
  - exists (length res), uf, b. split; [by rewrite list_lookup_middle|]. split; [done|].
    unfold merge. rewrite sameFilter_mergeAll, Hlast. by destruct b.
  - unfold merge. rewrite sameFilter_mergeAll, Hlast.
    apply lookup_app_Some in Hj as [Hj|[Hge Hj]].
    + destruct (IH _ _ _ Hj Hs) as (j & uf' & b' & Hl & Hs' & HL).
      exists j, uf', b'. split; [|done]. by apply lookup_app_l_Some.
    + destruct (j0 - length res)%nat; simplify_eq/=. congruence.
Qed.

Lemma due_Some force now hours f uf :
  due force now hours f = Some uf →
  ID uf = ID f ∧ URL uf = URL f ∧ Name uf = Name f ∧ checksum uf = checksum f.
Proof.
  unfold due. destruct (negb (Enabled f)); [done|].
  destruct (_ && _); [done|]. intros [= <-]. done.
Qed.

Lemma sameFilter_refl_due force now hours f uf :
  due force now hours f = Some uf → sameFilter uf f = true.
Proof.
  intros (Hid & Hurl & _)%due_Some. unfold sameFilter.
  by rewrite !bool_decide_eq_true_2.
Qed.

Lemma snapshot_lookup force now hours filters k f uf :
  filters !! k = Some f → due force now hours f = Some uf →
  ∃ j, snapshot force now hours filters !! j = Some uf.
Proof.
  intros Hk Hd. apply list_elem_of_lookup_1.
  unfold snapshot. apply list_elem_of_omap. exists f. split; [|done].
  by eapply list_elem_of_lookup_2.
Qed.

Lemma sameFilter_fetched uf w f : sameFilter (fetched uf w) f = sameFilter uf f.
Proof. unfold sameFilter. by rewrite fetched_ID, fetched_URL. Qed.


(** C1 (amended). Take a pass of [refreshFiltersArray] in which at least
    one fetch succeeds, and a live filter [f] such that every fetch made for
    its identifier and URL failed. After the pass the filter is as it was in
    every field but [LastUpdated]: rule count, checksum and name are kept.
    If [f] was snapshotted, [LastUpdated] is the clock reading of a fetch
    made for it, not the value from before the pass. *)
Theorem refresh_failed_filter (filters : list filter) (force : bool) (hours : Z)
    (env : Env) (d : disk) (k : nat) (f : filter) :
  let ufs := snapshot force (e_now env) hours filters in
  filters !! k = Some f →
  (∃ j uf, ufs !! j = Some uf ∧ fetchErr uf (e_fetch env j) = None) →
  (∀ j uf, ufs !! j = Some uf → sameFilter uf f = true →
           fetchErr uf (e_fetch env j) ≠ None) →
  ∃ f', (refreshFiltersArray filters force hours env d).1.2 !! k = Some f'
    ∧ RulesCount f' = RulesCount f ∧ checksum f' = checksum f ∧ Name f' = Name f
    ∧ f' = setLastUpdated (LastUpdated f') f
    ∧ (is_Some (due force (e_now env) hours f) →
       ∃ j uf, ufs !! j = Some uf ∧ sameFilter uf f = true
               ∧ LastUpdated f' = w_now (e_fetch env j)).
Proof.
  intros ufs Hk (j1 & uf1 & Hj1 & Hok) Hfail.
  rewrite refreshFiltersArray_filters. fold ufs.
  rewrite bool_decide_eq_false_2.
  2:{ pose proof (failures_lt ufs (e_fetch env) j1 uf1 Hj1 Hok). lia. }
  exists (mergeAll (results ufs (e_fetch env) 0) f).
  split; [by rewrite list_lookup_fmap, Hk|].
  assert (Hframe : mergeAll (results ufs (e_fetch env) 0) f
                   = setLastUpdated (LastUpdated (mergeAll (results ufs (e_fetch env) 0) f)) f).
  { apply mergeAll_frame. intros uf b [j Hj]%list_elem_of_lookup_1 Hs.
    rewrite results_lookup in Hj.
    destruct (ufs !! j) as [uf0|] eqn:Huf; simplify_eq/=.
    rewrite sameFilter_fetched in Hs.
    apply failed_not_changed. by eapply Hfail. }
  split; [by rewrite Hframe|]. split; [by rewrite Hframe|].
  split; [by rewrite Hframe|]. split; [done|].
  intros [uf Hdue].
  destruct (snapshot_lookup force (e_now env) hours filters k f uf Hk Hdue) as [j0 Hj0].
  pose proof (sameFilter_refl_due _ _ _ _ _ Hdue) as Hs0.
  destruct (mergeAll_LastUpdated (results ufs (e_fetch env) 0) f j0
              (fetched uf (e_fetch env j0)) (changed uf (e_fetch env j0)))
    as (j & uf' & b' & Hl & Hs & HL).
  { rewrite results_lookup. fold ufs in Hj0. by rewrite Hj0. }
  { by rewrite sameFilter_fetched. }
  rewrite results_lookup in Hl.
  destruct (ufs !! j) as [uf2|] eqn:Huf; simplify_eq/=.
  exists j, uf2. split; [done|]. split; [by rewrite sameFilter_fetched in Hs|].
  by rewrite HL, fetched_LastUpdated.
Qed.

(** C1, the claim as written fails: of two due filters the first is
    answered 404 and the second is served; the first keeps rule count,
    checksum and name, but its [LastUpdated] goes from 0 to the time of the
    failed attempt. *)
Lemma refresh_failed_filter_counterexample :
  imap (fun j uf => fetchErr uf (e_fetch firstFails j))
    (snapshot true (e_now firstFails) 24 [listA; listB])
  = [Some (ErrStatus 404); None]
  ∧ LastUpdated listA = 0
  ∧ (refreshFiltersArray [listA; listB] true 24 firstFails ∅).1.2 !! 0%nat
    = Some (setLastUpdated t1 listA)
  ∧ LastUpdated (setLastUpdated t1 listA) ≠ LastUpdated listA.
Proof. repeat split; by vm_compute. Qed.

Lemma refresh_failed_filter_witness :
  ∃ f', (refreshFiltersArray [listA; listB] true 24 firstFails ∅).1.2 !! 0%nat = Some f'
    ∧ RulesCount f' = 3 ∧ checksum f' = 77 ∧ Name f' = "A"%string
    ∧ f' = setLastUpdated (LastUpdated f') listA.
Proof.
  destruct (refresh_failed_filter [listA; listB] true 24 firstFails ∅ 0 listA)
    as (f' & Hk & Hr & Hc & Hn & Hf & Hl).
  - reflexivity.
  - exists 1%nat, (setChecksum 88 (setName "B" (setURL "http://b/list.txt" (setID 12 zeroFilter)))).
    split; [reflexivity | vm_compute; reflexivity].
  - intros [|[|j]] uf Hj Hs.
    + injection Hj as <-. vm_compute. discriminate.
    + injection Hj as <-. discriminate Hs.
    + discriminate Hj.
  - exists f'. auto.
Defined.

(** ** Unchanged content *)










(** ** Content sniffing *)

Lemma firstChunkSize_eq : firstChunkSize = 4096%nat.
Proof. reflexivity. Qed.

Local Opaque firstChunkSize.

Lemma copyAt_sampling data x :
  (length data < firstChunkSize)%nat →
  copyAt (data ++ replicate (firstChunkSize - length data) NUL) (length data)
    (take (Nat.min (length x) (firstChunkSize - length data)) x)
  = take firstChunkSize (data ++ x)
    ++ replicate (firstChunkSize - length (data ++ x)) NUL.
Proof.
  intros Hlt. unfold copyAt.
  rewrite take_app_length, length_app, length_replicate, length_take.
  replace (length data + (firstChunkSize - length data) - length data)%nat
    with (firstChunkSize - length data)%nat by lia.
  rewrite take_take.
  replace (Nat.min (firstChunkSize - length data)
             (Nat.min (length x) (firstChunkSize - length data)))
    with (Nat.min (length x) (firstChunkSize - length data)) by lia.
  rewrite drop_app_ge by lia. rewrite drop_replicate.
  rewrite take_app, (take_ge data) by lia.
  rewrite <- app_assoc. f_equal.
  rewrite length_app.
  destruct (decide (length x ≤ firstChunkSize - length data)%nat) as [Hle|Hgt].
  - rewrite Nat.min_l by done. rewrite (take_ge x) by lia. rewrite take_ge by lia.
    f_equal. f_equal. lia.
  - rewrite Nat.min_r by lia. f_equal. f_equal. lia.
Qed.

Lemma sniff_sampling data x eof st :
  sampling data st →
  sniff x eof st
  = if bool_decide (firstChunkSize ≤ length (data ++ x))%nat
    then verdict (take firstChunkSize (data ++ x)) firstChunkSize st
    else if eof
         then verdict (data ++ x ++ replicate (firstChunkSize - length (data ++ x)) NUL)
                (length (data ++ x)) st
         else inr (mkDownload true
                     (data ++ x ++ replicate (firstChunkSize - length (data ++ x)) NUL)
                     (length (data ++ x)) (d_tmpfile st) (d_total st) []).
Proof.
  intros (Ht & Hlen & Hlt & Hfc & Hch).
  unfold sniff. rewrite Ht, Hfc, Hlen.
  rewrite length_app, length_replicate.
  replace (length data + (firstChunkSize - length data) - length data)%nat
    with (firstChunkSize - length data)%nat by lia.
  rewrite copyAt_sampling by done.
  rewrite !length_app, length_take, length_replicate, length_app.
  destruct (decide (firstChunkSize ≤ length data + length x)%nat) as [Hge|Hlt2].
  - rewrite (bool_decide_eq_true_2 (firstChunkSize ≤ _)%nat) by done.
    rewrite (bool_decide_eq_true_2 (_ = _)) by lia. simpl orb. cbv iota.
    replace (firstChunkSize - (length data + length x))%nat with 0%nat by lia.
    simpl replicate. rewrite app_nil_r. unfold verdict.
    replace (length data + Nat.min (length x) (firstChunkSize - length data))%nat
      with firstChunkSize by lia.
    done.
  - rewrite (bool_decide_eq_false_2 (firstChunkSize ≤ _)%nat) by done.
    rewrite (bool_decide_eq_false_2 (_ = _)) by lia. simpl orb.
    rewrite take_ge by (rewrite length_app; lia).
    rewrite <- app_assoc.
    replace (length data + Nat.min (length x) (firstChunkSize - length data))%nat
      with (length data + length x)%nat by lia.
    destruct eof; [|by rewrite Hch].
    unfold verdict. done.
Qed.

Lemma readStep_settled c eof st :
  d_htmlTest st = false →
  match readStep c eof st with
  | inl (e, checked) => e = ErrWrite ∧ checked = d_checked st
  | inr st' => d_htmlTest st' = false ∧ d_checked st' = d_checked st
               ∧ d_tmpfile st' = d_tmpfile st ++ c_data c
  end.
Proof.
  intros Ht. unfold readStep, sniff. simpl. rewrite Ht. by destruct (c_writeErr c).
Qed.

Lemma readAll_settled chunks last err st :
  d_htmlTest st = false →
  match readAll chunks last err st with
  | inl (e, checked) => (e = ErrWrite ∨ e = ErrRead) ∧ checked = d_checked st
  | inr st' => d_htmlTest st' = false ∧ d_checked st' = d_checked st
               ∧ d_tmpfile st' = d_tmpfile st ++ delivered (chunks ++ [last])
  end.
Proof.
  revert st. induction chunks as [|c chunks IH]; intros st Ht; simpl.
  - pose proof (readStep_settled last (isEOF err) st Ht) as Hs.
    destruct (readStep last (isEOF err) st) as [[e ch]|st'].
    + destruct Hs as [-> ->]. auto.
    + destruct Hs as (Ht' & Hc & Hf). destruct err; [|by auto].
      unfold delivered. simpl. by rewrite app_nil_r.
  - pose proof (readStep_settled c false st Ht) as Hs.
    destruct (readStep c false st) as [[e ch]|st'].
    + destruct Hs as [-> ->]. auto.
    + destruct Hs as (Ht' & Hc & Hf). specialize (IH st' Ht').
      destruct (readAll chunks last err st') as [[e ch]|st''].
      * destruct IH as [He ->]. by rewrite Hc.
      * destruct IH as (? & -> & ->). rewrite Hc, Hf.
        split; [done|]. split; [done|].
        unfold delivered. simpl. by rewrite app_assoc.
Qed.

Lemma sampling_total data st n :
  sampling data st →
  sampling data (mkDownload (d_htmlTest st) (d_firstChunk st) (d_firstChunkLen st)
                   (d_tmpfile st) n (d_checked st)).
Proof. by intros (? & ? & ? & ? & ?). Qed.

(** A turn of the loop that completes the sample. *)
Lemma readStep_completes data c eof st :
  sampling data st → (firstChunkSize ≤ length (data ++ c_data c))%nat →
  match readStep c eof st with
  | inl (e, checked) =>
      checked = [take firstChunkSize (data ++ c_data c)]
      ∧ (e = ErrNonPrintable
         ↔ isPrintableText (take firstChunkSize (data ++ c_data c)) = false)
  | inr st' =>
      d_htmlTest st' = false
      ∧ d_checked st' = [take firstChunkSize (data ++ c_data c)]
      ∧ isPrintableText (take firstChunkSize (data ++ c_data c)) = true
  end.
Proof.
  intros Hs Hge. unfold readStep.
  rewrite (sniff_sampling data) by (by apply sampling_total).
  rewrite bool_decide_eq_true_2 by done. unfold verdict. simpl d_checked.
  destruct Hs as (_ & _ & _ & _ & ->).
  destruct (isPrintableText _) eqn:Hp; simpl; [|done].
  destruct (_ || _); [by split; [|split]|].
  destruct (c_writeErr c); simpl; [by split; [|split]|done].
Qed.

(** A turn of the loop that leaves the sample incomplete. *)
Lemma readStep_continues data c st :
  sampling data st → (length (data ++ c_data c) < firstChunkSize)%nat →
  c_writeErr c = false →
  ∃ st', readStep c false st = inr st' ∧ sampling (data ++ c_data c) st'
         ∧ d_tmpfile st' = d_tmpfile st ++ c_data c.
Proof.
  intros Hs Hlt Hw. unfold readStep.
  rewrite (sniff_sampling data) by (by apply sampling_total).
  rewrite bool_decide_eq_false_2 by lia. rewrite Hw. simpl.
  eexists. split; [reflexivity|]. split; [|done].
  unfold sampling. simpl. by rewrite <- app_assoc.
Qed.

Lemma readAll_sampling chunks last err pre c post data st :
  sampling data st →
  chunks ++ [last] = pre ++ c :: post →
  Forall (fun x => c_writeErr x = false) pre →
  (length (data ++ delivered pre) < firstChunkSize)%nat →
  (firstChunkSize ≤ length (data ++ delivered pre ++ c_data c))%nat →
  sniffedOnce (take firstChunkSize (data ++ delivered pre ++ c_data c))
    (readAll chunks last err st).
Proof.
  revert chunks data st.
  induction pre as [|p pre IH]; intros chunks data st Hs Hsplit Hw Hlt Hge.
  - unfold delivered in *. simpl in *. rewrite app_nil_r in Hlt.
    assert (Hstep : ∀ eof,
      match readStep c eof st with
      | inl (e, checked) =>
          checked = [take firstChunkSize (data ++ c_data c)]
          ∧ (e = ErrNonPrintable
             ↔ isPrintableText (take firstChunkSize (data ++ c_data c)) = false)
      | inr st' =>
          d_htmlTest st' = false
          ∧ d_checked st' = [take firstChunkSize (data ++ c_data c)]
          ∧ isPrintableText (take firstChunkSize (data ++ c_data c)) = true
      end) by (intros eof; by apply readStep_completes).
    destruct chunks as [|c' chunks]; simpl in Hsplit; simplify_eq; simpl.
    + specialize (Hstep (isEOF err)).
      destruct (readStep c (isEOF err) st) as [[e ch]|st']; [done|].
      destruct Hstep as (Ht & Hc & Hp). destruct err; simpl; [done|].
      split; [done|]. split; [done | congruence].
    + specialize (Hstep false).
      destruct (readStep c false st) as [[e ch]|st']; [done|].
      destruct Hstep as (Ht & Hc & Hp).
      pose proof (readAll_settled chunks last err st' Ht) as Hrest.
      destruct (readAll chunks last err st') as [[e ch]|st''].
      * destruct Hrest as [He ->]. split; [done|].
        split; [intros ->; by destruct He | congruence].
      * destruct Hrest as (_ & Hc' & _). split; [congruence | done].
  - apply Forall_cons in Hw as [Hwp Hw].
    unfold delivered in Hlt, Hge. simpl in Hlt, Hge. fold (delivered pre) in Hlt, Hge.
    destruct chunks as [|c' chunks]; simpl in Hsplit.
    { destruct pre; simplify_eq/=. }
    simplify_eq. simpl.
    destruct (readStep_continues data p st Hs) as (st' & -> & Hs' & _); [|done|].
    { rewrite !length_app in *. lia. }
    replace (data ++ delivered (p :: pre) ++ c_data c)
      with ((data ++ c_data p) ++ delivered pre ++ c_data c)
      by (unfold delivered; simpl; by rewrite <- !app_assoc).
    apply IH; try done; rewrite !length_app in *; lia.
Qed.

Lemma sampling_download0 : sampling [] download0.
Proof.
  unfold sampling, download0. simpl. rewrite Nat.sub_0_r.
  repeat split; try done. rewrite firstChunkSize_eq. lia.
Qed.

Lemma printable_allowed c : printable c = true ↔ allowedByte c.
Proof.
  unfold allowedByte.
  destruct c as [[] [] [] [] [] [] [] []]; vm_compute;
    (split; [intros H; first [discriminate H | (left; split; discriminate)
                              | (right; left; discriminate)
                              | (right; right; left; reflexivity)
                              | (right; right; right; left; reflexivity)
                              | (right; right; right; right; reflexivity)]
            | intros H; first [reflexivity
                              | exfalso;
                                destruct H as [[H1 H2]|[H|[H|[H|H]]]];
                                first [discriminate H | by apply H1 | by apply H2 | by apply H]]]).
Qed.

Lemma isPrintableText_allowed s : isPrintableText s = true ↔ Forall allowedByte s.
Proof.
  unfold isPrintableText. rewrite forallb_forall, Forall_forall.
  split; intros H x Hx.
  - apply printable_allowed, H. by apply list_elem_of_In.
  - apply printable_allowed, H. by apply list_elem_of_In.
Qed.

Lemma updateIntl_nonprintable f w d body :
  w_tempFileErr w = false → w_resp w = Resp 200 body →
  (updateIntl f w d).1.2 = Some ErrNonPrintable
  ↔ ∃ checked, readAll (b_chunks body) (b_last body) (b_err body) download0
               = inl (ErrNonPrintable, checked).
Proof.
  intros Htmp Hresp. unfold updateIntl. rewrite Htmp, Hresp.
  change (negb (200 =? 200)) with false. cbv beta iota.
  destruct (readAll _ _ _ _) as [[e ch]|st].
  - simpl. split; [intros [= ->]; eauto | by intros (? & [= -> _])].
  - destruct (parseFilterContents (d_tmpfile st)) as [[n sum] name].
    destruct (checksum f =? sum); [simpl; split; [done | by intros (? & ?)]|].
    destruct (w_renameErr w); simpl; split; try done; by intros (? & ?).
Qed.

(** C2 (amended). Take a fetch that gets status 200 and whose reads deliver
    at least [firstChunkSize] = 4096 bytes, no write to the temporary file
    failing before they have. Then [isPrintableText] is called exactly once
    in the fetch, on the first 4096 bytes delivered, and the fetch fails as
    non-printable exactly when one of these bytes is neither printable
    ASCII, nor a byte from 0x80 up, nor line feed, carriage return or tab. *)
Theorem sniff_once_on_full_sample (f : filter) (w : World) (d : disk) (body : Body)
    (pre : list Chunk) (c : Chunk) (post : list Chunk) :
  w_tempFileErr w = false →
  w_resp w = Resp 200 body →
  b_chunks body ++ [b_last body] = pre ++ c :: post →
  Forall (fun x => c_writeErr x = false) pre →
  (length (delivered pre) < firstChunkSize ≤ length (delivered pre ++ c_data c))%nat →
  let sample := take firstChunkSize (delivered pre ++ c_data c) in
  checkedSamples (readAll (b_chunks body) (b_last body) (b_err body) download0)
  = [sample]
  ∧ ((updateIntl f w d).1.2 = Some ErrNonPrintable ↔ ¬ Forall allowedByte sample).
Proof.
  intros Htmp Hresp Hsplit Hw [Hlt Hge] sample.
  pose proof (readAll_sampling (b_chunks body) (b_last body) (b_err body)
                pre c post [] download0 sampling_download0 Hsplit Hw Hlt Hge) as Hs.
  simpl app in Hs. fold sample in Hs.
  rewrite (updateIntl_nonprintable f w d body Htmp Hresp).
  rewrite <- isPrintableText_allowed.
  destruct (readAll _ _ _ _) as [[e ch]|st]; simpl in *.
  - destruct Hs as [-> Hiff]. split; [done|]. split.
    + intros (ch & [= -> _]). rewrite (proj1 Hiff eq_refl). done.
    + intros Hn. exists [sample]. f_equal. f_equal. apply Hiff.
      by destruct (isPrintableText sample).
  - destruct Hs as [-> Hp]. split; [done|]. split; [by intros (? & ?)|].
    by rewrite Hp.
Qed.

(** C2, the claim as written fails: the first 4096 bytes contain the byte
    0xC3, which is not printable ASCII, line feed, carriage return or tab;
    the check is made on these 4096 bytes and the fetch succeeds. *)
Lemma sniff_high_byte_counterexample :
  "195"%char ∈ take firstChunkSize accented
  ∧ ¬ asciiTextByte "195"%char
  ∧ checkedSamples (readAll [] (mkChunk accented false) EOF download0)
    = [take firstChunkSize accented]
  ∧ update listA (serves accented t1) ∅
    = (setLastUpdated t1 (setChecksum 3491148434 (setRulesCount 300 listA)),
       true, None, {[ 11 := mkFile accented t1 ]}).
Proof.
  split; [|split; [|split]].
  - apply list_elem_of_lookup_2 with 5%nat. reflexivity.
  - intros [[_ H]|[H|[H|H]]]; [by apply H | discriminate H..].
  - vm_compute. reflexivity.
  - vm_compute. reflexivity.
Qed.

Lemma sniff_once_on_full_sample_witness :
  checkedSamples (readAll [] (mkChunk accented false) EOF download0)
  = [take firstChunkSize accented]
  ∧ ((updateIntl listA (serves accented t1) ∅).1.2 = Some ErrNonPrintable
     ↔ ¬ Forall allowedByte (take firstChunkSize accented)).
Proof.
  apply (sniff_once_on_full_sample listA (serves accented t1) ∅
           (mkBody [] (mkChunk accented false) EOF) [] (mkChunk accented false) []).
  - reflexivity.
  - reflexivity.
  - reflexivity.
  - constructor.
  - split; [vm_compute; lia | vm_compute; lia].
Defined.

(** ** Bodies shorter than the sample *)

Lemma isPrintableText_padded s n :
  isPrintableText (s ++ replicate (S n) NUL) = false.
Proof.
  unfold isPrintableText. rewrite forallb_app. simpl.
  by rewrite andb_false_r.
Qed.

Lemma readAll_short chunks last data st :
  sampling data st →
  Forall (fun x => c_writeErr x = false) chunks →
  (length (data ++ delivered (chunks ++ [last])) < firstChunkSize)%nat →
  readAll chunks last EOF st
  = inl (ErrNonPrintable,
         [data ++ delivered (chunks ++ [last])
          ++ replicate (firstChunkSize - length (data ++ delivered (chunks ++ [last]))) NUL]).
Proof.
  revert data st. induction chunks as [|c chunks IH]; intros data st Hs Hw Hlt.
  - unfold delivered in *. simpl in *. rewrite app_nil_r in *.
    unfold readStep. rewrite (sniff_sampling data) by (by apply sampling_total).
    rewrite bool_decide_eq_false_2 by lia. simpl isEOF. cbv iota.
    unfold verdict. simpl d_checked. destruct Hs as (_ & _ & _ & _ & ->).
    destruct (firstChunkSize - length (data ++ c_data last))%nat as [|n] eqn:Hn; [lia|].
    rewrite app_assoc, isPrintableText_padded. simpl. by rewrite <- app_assoc.
  - apply Forall_cons in Hw as [Hwc Hw].
    unfold delivered in Hlt. simpl in Hlt. fold (delivered (chunks ++ [last])) in Hlt.
    simpl readAll.
    destruct (readStep_continues data c st Hs) as (st' & -> & Hs' & _); [|done|].
    { rewrite !length_app in *. lia. }
    rewrite (IH (data ++ c_data c) st' Hs' Hw) by (rewrite !length_app in *; lia).
    unfold delivered. simpl. by rewrite <- !app_assoc.
Qed.

(** ** Parsing *)

Lemma lxor_mask_involutive x : Crc32.not32 (Crc32.not32 x) = x.
Proof.
  unfold Crc32.not32. by rewrite Z.lxor_assoc, Z.lxor_nilpotent, Z.lxor_0_r.
Qed.

Lemma Update_app crc a b :
  Crc32.Update (Crc32.Update crc a) b = Crc32.Update crc (a ++ b).
Proof.
  unfold Crc32.Update. by rewrite lxor_mask_involutive, fold_left_app.
Qed.

Lemma Update_nil crc : Crc32.Update crc [] = crc.
Proof. unfold Crc32.Update. simpl. apply lxor_mask_involutive. Qed.

Lemma ReadString_line l rest :
  LF ∉ l → Bufio.ReadString LF (l ++ LF :: rest) = (l ++ [LF], rest, false).
Proof.
  induction l as [|c l IH]; intros Hl; simpl.
  - done.
  - apply not_elem_of_cons in Hl as [Hc Hl].
    rewrite bool_decide_eq_false_2 by congruence. by rewrite IH.
Qed.

Lemma ReadString_tail tail :
  LF ∉ tail → Bufio.ReadString LF tail = (tail, [], true).
Proof.
  induction tail as [|c l IH]; intros Hl; simpl; [done|].
  apply not_elem_of_cons in Hl as [Hc Hl].
  rewrite bool_decide_eq_false_2 by congruence. by rewrite IH.
Qed.

Lemma parseLoop_lines ls tail st fuel :
  Forall (fun l => LF ∉ l) ls → LF ∉ tail → (length ls < fuel)%nat →
  parseLoop fuel (joinLF ls ++ tail) st
  = fold_left (fun st l => parseLine (l ++ [LF]) st) ls st.
Proof.
  intros Hls Htail. revert st fuel.
  induction Hls as [|l ls Hl Hls IH]; intros st fuel Hfuel.
  - destruct fuel as [|fuel]; [simpl in Hfuel; lia|].
    simpl. by rewrite ReadString_tail.
  - destruct fuel as [|fuel]; [simpl in Hfuel; lia|].
    unfold joinLF. simpl concat. fold (joinLF ls).
    rewrite <- !app_assoc. simpl app.
    simpl parseLoop. rewrite ReadString_line by done.
    simpl fold_left. apply IH. simpl in Hfuel. lia.
Qed.

Lemma length_joinLF ls : (length ls ≤ length (joinLF ls))%nat.
Proof.
  induction ls as [|l ls IH]; simpl; [done|].
  unfold joinLF in *. simpl. rewrite !length_app. simpl. lia.
Qed.

(** Every input is a sequence of lines ended by line feeds, followed by
    bytes without a line feed. *)
Lemma lines_exist (f : list ascii) :
  ∃ ls tail, f = joinLF ls ++ tail ∧ Forall (fun l => LF ∉ l) ls ∧ LF ∉ tail.
Proof.
  induction f as [|c f (ls & tail & -> & Hls & Htail)].
  - exists [], []. split; [done|]. split; [constructor | apply not_elem_of_nil].
  - destruct (decide (c = LF)) as [->|Hc].
    + exists ([] :: ls), tail. split; [done|]. split; [|done].
      constructor; [apply not_elem_of_nil | done].
    + destruct ls as [|l ls].
      * exists [], (c :: tail). split; [done|]. split; [done|].
        by apply not_elem_of_cons.
      * exists ((c :: l) :: ls), tail. split; [done|]. split; [|done].
        apply Forall_cons in Hls as [Hl Hls]. constructor; [|done].
        by apply not_elem_of_cons.
Qed.

Lemma parseFilterContents_lines ls tail :
  Forall (fun l => LF ∉ l) ls → LF ∉ tail →
  parseFilterContents (joinLF ls ++ tail)
  = let st := fold_left (fun st l => parseLine (l ++ [LF]) st) ls parse0 in
    (p_rulesCount st, p_checksum st, p_name st).
Proof.
  intros Hls Htail. unfold parseFilterContents.
  rewrite parseLoop_lines; [done..|].
  rewrite length_app. pose proof (length_joinLF ls). lia.
Qed.

Lemma parseLine_checksum line st :
  p_checksum (parseLine line st) = Crc32.Update (p_checksum st) line.
Proof.
  unfold parseLine. destruct (GoStrings.TrimSpace line) as [|c t]; [done|].
  case_bool_decide; [|done].
  destruct (filterTitleRegexp (c :: t)); [|done]. by destruct (negb _).
Qed.


Lemma fold_parse_checksum ls st :
  p_checksum (fold_left (fun st l => parseLine (l ++ [LF]) st) ls st)
  = Crc32.Update (p_checksum st) (joinLF ls).
Proof.
  revert st. induction ls as [|l ls IH]; intros st; simpl.
  - unfold joinLF. simpl. by rewrite Update_nil.
  - rewrite IH, parseLine_checksum, Update_app. done.
Qed.




(** C3, the code at a body whose last line is not ended by a line feed. The
    download succeeds and the update is committed as changed, with rule
    count 300 although the body has 301 rule lines, and with the CRC32 of
    the first 300 lines as checksum, which is not the CRC32 of the body:
    the loop of [parseFilterContents] leaves on the end-of-input error that
    comes with the last line, before anything is done with that line. *)
Lemma parse_drops_unterminated_line :
  update listA (serves unterminated t1) ∅
  = (setLastUpdated t1 (setChecksum sum300 (setRulesCount 300 listA)),
     true, None, {[ 11 := mkFile unterminated t1 ]})
  ∧ sum300 = Crc32.ChecksumIEEE rules300
  ∧ Crc32.ChecksumIEEE unterminated = 3382274543
  ∧ Crc32.ChecksumIEEE unterminated ≠ sum300
  ∧ parseFilterContents (bytes "||last.example.org^") = (0, 0, ""%string).
Proof.
  split; [vm_compute; reflexivity|].
  split; [vm_compute; reflexivity|].
  split; [vm_compute; reflexivity|].
  split; [vm_compute; discriminate|].
  vm_compute; reflexivity.
Qed.

(** ** Further properties of the fetch pipeline *)

(** X1. A body that ends, without a failed write, before 4096 bytes have been
    delivered is rejected as non-printable whatever its bytes are: the check
    is made on the whole sample buffer, and the part of it that the body
    did not fill holds zero bytes. The filter and the content directory are
    left as they were. *)
Theorem short_body_rejected (f : filter) (w : World) (d : disk) (body : Body) :
  w_tempFileErr w = false →
  w_resp w = Resp 200 body →
  b_err body = EOF →
  Forall (fun x => c_writeErr x = false) (b_chunks body) →
  (length (delivered (b_chunks body ++ [b_last body])) < firstChunkSize)%nat →
  updateIntl f w d = (f, false, Some ErrNonPrintable, d).
Proof.
  intros Htmp Hresp Herr Hw Hlt. unfold updateIntl. rewrite Htmp, Hresp.
  change (negb (200 =? 200)) with false. cbv beta iota. rewrite Herr.
  by rewrite (readAll_short (b_chunks body) (b_last body) [] download0
                sampling_download0 Hw Hlt).
Qed.

Lemma short_body_rejected_witness :
  updateIntl listA (serves rule t1) ∅ = (listA, false, Some ErrNonPrintable, ∅).
Proof.
  apply (short_body_rejected listA (serves rule t1) ∅ (mkBody [] (mkChunk rule false) EOF)).
  - reflexivity.
  - reflexivity.
  - reflexivity.
  - constructor.
  - rewrite firstChunkSize_eq. vm_compute. lia.
Defined.

(** X2. [isPrintableText] holds of exactly the byte sequences made of printable
    ASCII, bytes from 0x80 up, line feeds, carriage returns and tabs. The
    empty sequence passes. *)
Theorem isPrintableText_spec (data : list ascii) :
  isPrintableText data = true
  ↔ ∀ c, c ∈ data →
      32 ≤ byteZ c ≤ 126 ∨ 128 ≤ byteZ c ∨ c = LF ∨ c = CR ∨ c = TAB.
Proof.
  rewrite isPrintableText_allowed, Forall_forall. done.
Qed.

(** X3. On every error [updateIntl] reports no change and leaves the content
    directory as it was; unless the error is the failed rename it also leaves
    the filter as it was. When it reports neither an error nor a change,
    filter and directory are as they were. *)
Theorem updateIntl_error_frame (f : filter) (w : World) (d : disk) :
  let '(f', b, err, d') := updateIntl f w d in
  match err with
  | Some e => b = false ∧ d' = d ∧ (e ≠ ErrRename → f' = f)
  | None => b = false → f' = f ∧ d' = d
  end.
Proof.
  unfold updateIntl.
  destruct (w_tempFileErr w); [done|].
  destruct (w_resp w) as [|code body]; [done|].
  destruct (negb (code =? 200)); [done|].
  destruct (readAll _ _ _ _) as [[e ?]|st]; [done|].
  destruct (parseFilterContents _) as [[n sum] name].
  destruct (checksum f =? sum); [done|].
  destruct (w_renameErr w); done.
Qed.

(** X4. Round trip through the content directory: when [update] reports a
    change, there is no error, and [load] of the updated filter from the
    directory [update] leaves finds the file and reproduces the rule count
    and the checksum [update] stored; only [LastUpdated] becomes the
    modification time of the file. *)
Theorem update_then_load (f : filter) (w : World) (d : disk) :
  (update f w d).1.1.2 = true →
  (update f w d).1.2 = None
  ∧ load (update f w d).1.1.1 (update f w d).2
    = (setLastUpdated (w_mtime w) (update f w d).1.1.1, false).
Proof.
  unfold update, updateIntl.
  destruct (w_tempFileErr w); [done|].
  destruct (w_resp w) as [|code body]; [done|].
  destruct (negb (code =? 200)); [done|].
  destruct (readAll _ _ _ _) as [[e ?]|st]; [done|].
  destruct (parseFilterContents (d_tmpfile st)) as [[n sum] name] eqn:Hp.
  destruct (checksum f =? sum); [done|].
  destruct (w_renameErr w); [done|]. intros _. split; [done|].
  unfold load. cbn [fst snd].
  assert (Hid : ∀ g, ID (setLastUpdated (w_now w) (setChecksum sum (setRulesCount n g))) = ID g)
    by done.
  rewrite Hid.
  assert (Hid' : ID (if bool_decide (name ≠ ""%string) then setName name f else f) = ID f)
    by (by case_bool_decide).
  cbn [ID setChecksum setRulesCount]. rewrite Hid', lookup_insert_eq. cbn [f_data f_mtime].
  rewrite Hp. by case_bool_decide.
Qed.

Lemma update_then_load_witness :
  load (setLastUpdated t1 (setChecksum 3491148434 (setRulesCount 300 listA)))
    {[ 11 := mkFile accented t1 ]}
  = (setLastUpdated t1 (setLastUpdated t1 (setChecksum 3491148434 (setRulesCount 300 listA))),
     false).
Proof.
  assert (E : update listA (serves accented t1) ∅
              = (setLastUpdated t1 (setChecksum 3491148434 (setRulesCount 300 listA)),
                 true, None, {[ 11 := mkFile accented t1 ]}))
    by (vm_compute; reflexivity).
  pose proof (update_then_load listA (serves accented t1) ∅) as H.
  rewrite E in H. exact (proj2 (H eq_refl)).
Defined.

(** ** Further properties of the parser *)

(** X5. The checksum [parseFilterContents] returns is the CRC32 of the lines
    ended by a line feed; bytes after the last line feed do not enter it. *)
Theorem parse_checksum (ls : list (list ascii)) (tail : list ascii) :
  Forall (fun l => LF ∉ l) ls → LF ∉ tail →
  (parseFilterContents (joinLF ls ++ tail)).1.2 = Crc32.ChecksumIEEE (joinLF ls).
Proof.
  intros Hls Htail. rewrite parseFilterContents_lines by done.
  cbn [fst snd]. apply fold_parse_checksum.
Qed.

Lemma parse_checksum_witness :
  (parseFilterContents (joinLF [bytes "||a.example^"; bytes "! note"] ++ bytes "||b.example^")).1.2
  = Crc32.ChecksumIEEE (joinLF [bytes "||a.example^"; bytes "! note"]).
Proof.
  apply parse_checksum.
  - repeat constructor; intros H; vm_compute in H; by repeat (apply elem_of_cons in H as [H|H]; [discriminate H|]); apply elem_of_nil in H.
  - intros H; by repeat (apply elem_of_cons in H as [H|H]; [discriminate H|]); apply elem_of_nil in H.
Defined.



(** X7. Bytes after the last line feed change none of the three results. *)
Theorem parse_ignores_unterminated_tail (ls : list (list ascii)) (tail : list ascii) :
  Forall (fun l => LF ∉ l) ls → LF ∉ tail →
  parseFilterContents (joinLF ls ++ tail) = parseFilterContents (joinLF ls).
Proof.
  intros Hls Htail.
  rewrite parseFilterContents_lines by done.
  rewrite <- (app_nil_r (joinLF ls)).
  rewrite parseFilterContents_lines; [done | done | apply not_elem_of_nil].
Qed.

Lemma parse_ignores_unterminated_tail_witness :
  parseFilterContents (joinLF [bytes "||a.example^"] ++ bytes "! Title: late")
  = parseFilterContents (joinLF [bytes "||a.example^"]).
Proof.
  apply parse_ignores_unterminated_tail.
  - repeat constructor; intros H; vm_compute in H; by repeat (apply elem_of_cons in H as [H|H]; [discriminate H|]); apply elem_of_nil in H.
  - intros H; vm_compute in H; by repeat (apply elem_of_cons in H as [H|H]; [discriminate H|]); apply elem_of_nil in H.
Defined.

(** ** Further properties of the filter store *)

Lemma dedupLoop_spec fs (urls : gmap string bool) :
  NoDup (map URL (dedupLoop fs urls))
  ∧ (∀ g, g ∈ dedupLoop fs urls → urls !! URL g = None)
  ∧ (∀ f, f ∈ fs → urls !! URL f = None →
          ∃ g, g ∈ dedupLoop fs urls ∧ URL g = URL f).
Proof.
  revert urls. induction fs as [|f fs IH]; intros urls.
  - split; [constructor|]. split; intros ? H; by apply elem_of_nil in H.
  - simpl. destruct (urls !! URL f) eqn:Hf.
    + destruct (IH urls) as (Hnd & Hfresh & Hall). split; [done|]. split; [done|].
      intros f' [->|Hin]%elem_of_cons Hnone; [congruence | by apply Hall].
    + destruct (IH (<[URL f := true]> urls)) as (Hnd & Hfresh & Hall).
      split; [|split].
      * simpl. apply NoDup_cons_2; [|done].
        intros (g & Hg & Hin)%list_elem_of_fmap.
        specialize (Hfresh g Hin). rewrite <- Hg, lookup_insert_eq in Hfresh. done.
      * intros g [->|Hin]%elem_of_cons; [done|].
        specialize (Hfresh g Hin).
        apply lookup_insert_None in Hfresh as [? _]. done.
      * intros f' [->|Hin]%elem_of_cons Hnone.
        { exists f. split; [apply list_elem_of_here | done]. }
        destruct (decide (URL f' = URL f)) as [Heq|Hne].
        { exists f. split; [apply list_elem_of_here | done]. }
        destruct (Hall f' Hin) as (g & Hg & Hu).
        { by rewrite lookup_insert_ne. }
        exists g. split; [by apply list_elem_of_further | done].
Qed.

(** X8. After [deduplicateFilters] the block-list collection is a sublist of
    what it was, it holds no two filters with the same URL, every URL
    that was there is still there, and the allow-list collection is as it
    was. *)
Theorem deduplicateFilters_spec (c : configuration) :
  Filters (deduplicateFilters c) `sublist_of` Filters c
  ∧ NoDup (map URL (Filters (deduplicateFilters c)))
  ∧ (∀ f, f ∈ Filters c →
          ∃ g, g ∈ Filters (deduplicateFilters c) ∧ URL g = URL f)
  ∧ WhitelistFilters (deduplicateFilters c) = WhitelistFilters c.
Proof.
  unfold deduplicateFilters. simpl.
  destruct (dedupLoop_spec (Filters c) ∅) as (Hnd & _ & Hall).
  split; [apply dedupLoop_sublist|]. split; [done|]. split; [|done].
  intros f Hf. apply Hall; [done | apply lookup_empty].
Qed.

(** X9. A filter added successfully cannot be added again: the second [filterAdd]
    returns [false] and the store it was given, and [filterExistsNoLock]
    holds of the URL in between. *)
Theorem filterAdd_twice (f : filter) (c c' : configuration) :
  filterAdd f c = (c', true) →
  filterExistsNoLock c' (URL f) = true ∧ filterAdd f c' = (c', false).
Proof.
  unfold filterAdd. destruct (filterExistsNoLock c (URL f)) eqn:Hex; [done|].
  intros Hadd.
  assert (Hnow : filterExistsNoLock c' (URL f) = true).
  { apply filterExistsNoLock_spec. exists f. split; [|done].
    destruct (white f); simplify_eq; simpl; rewrite !elem_of_app;
      [right | left]; right; apply list_elem_of_here. }
  by rewrite Hnow.
Qed.

Lemma filterAdd_twice_witness :
  filterExistsNoLock (mkConfig [listA; listB] [allowA] 24 true []) (URL allowA) = true
  ∧ filterAdd allowA (mkConfig [listA; listB] [allowA] 24 true [])
    = (mkConfig [listA; listB] [allowA] 24 true [], false).
Proof.
  apply (filterAdd_twice allowA (mkConfig [listA; listB] [] 24 true [])). reflexivity.
Defined.

Lemma load_frame f d :
  ID (load f d).1 = ID f ∧ URL (load f d).1 = URL f ∧ Name (load f d).1 = Name f
  ∧ Enabled (load f d).1 = Enabled f ∧ white (load f d).1 = white f
  ∧ Data (load f d).1 = Data f.
Proof.
  unfold load. destruct (d !! ID f); [|done].
  by destruct (parseFilterContents _) as [[? ?] ?].
Qed.

(** What [filterSetProperties] can touch. Either no filter is located and
    the store is returned as it was, or the store returned differs from the
    one given at most in the located filter, at its index in the selected
    collection; that filter keeps its identifier, its [white] tag and its
    data, and takes the name and the enabled flag of the new properties
    unless the call ends on a URL collision. *)
Lemma filterSetProperties_shape url newf whitelist c d :
  filterSetProperties url newf whitelist c d = (c, 0)
  ∨ ∃ i f f' r,
      located url whitelist c i f
      ∧ filterSetProperties url newf whitelist c d
        = (setSelected whitelist (<[i := f']> (selected whitelist c)) c, r)
      ∧ ID f' = ID f ∧ white f' = white f ∧ Data f' = Data f
      ∧ Name f' = Name newf
      ∧ (r ≠ statusURLExists → Enabled f' = Enabled newf ∧ URL f' = URL newf).
Proof.
  unfold filterSetProperties.
  destruct (list_find (fun f => URL f = url) (selected whitelist c))
    as [[i f]|] eqn:Hfind; [|by left].
  right. exists i, f.
  pose proof Hfind as (Hi & Hf & _)%list_find_Some.
  cbv zeta.
  destruct (bool_decide (URL (setName (Name newf) f) ≠ URL newf)
            && filterExistsNoLock _ (URL newf)) eqn:Hcol.
  { exists (setName (Name newf) f), statusURLExists. repeat split; done. }
  match goal with
  | |- context [let '(_, _) := ?X in _] => destruct X as [f1 r1] eqn:E
  end.
  exists f1, (Z.lor r1 statusFound). rewrite store_store.
  split; [done|]. split; [done|].
  pose proof (load_frame
    (setEnabled (Enabled newf)
       (if bool_decide (URL (setName (Name newf) f) ≠ URL newf)
        then setRulesCount 0 (setChecksum 0 (setLastUpdated zeroTime
               (unload (setURL (URL newf) (setName (Name newf) f)))))
        else setName (Name newf) f)) d) as (L1 & L2 & L3 & L4 & L5 & L6).
  destruct (load _ d) as [f' e]. simpl in L1, L2, L3, L4, L5, L6.
  simpl in E.
  repeat case_bool_decide; repeat (case_match; simplify_eq/=); simplify_eq/=;
    repeat split; try done; try congruence;
    try (intros _; split; congruence);
    try (intros _; by destruct (Enabled f), (Enabled newf)).
Qed.

(** X10. [filterSetProperties] never touches the other collection nor the rest of
    the configuration, keeps the identifiers of the selected collection in
    place, and leaves every filter whose URL is not the one looked up as it
    was. *)
Theorem setProperties_frame (url : string) (newf : filter) (whitelist : bool)
    (c : configuration) (d : disk) :
  let c' := (filterSetProperties url newf whitelist c d).1 in
  selected (negb whitelist) c' = selected (negb whitelist) c
  ∧ map ID (selected whitelist c') = map ID (selected whitelist c)
  ∧ FiltersUpdateIntervalHours c' = FiltersUpdateIntervalHours c
  ∧ FilteringEnabled c' = FilteringEnabled c
  ∧ UserRules c' = UserRules c
  ∧ ∀ j g, selected whitelist c !! j = Some g → URL g ≠ url →
           selected whitelist c' !! j = Some g.
Proof.
  destruct (filterSetProperties_shape url newf whitelist c d)
    as [-> | (i & f & f' & r & Hloc & -> & Hid & _)]; [done|].
  pose proof Hloc as (Hi & Hf & _)%list_find_Some.
  cbn [fst]. rewrite selected_setSelected.
  split; [by destruct whitelist|]. split.
  { rewrite list_fmap_insert, Hid. apply list_insert_id.
    by rewrite list_lookup_fmap, Hi. }
  split; [by destruct whitelist|]. split; [by destruct whitelist|].
  split; [by destruct whitelist|].
  intros j g Hj Hg. destruct (decide (i = j)) as [->|Hne].
  - congruence.
  - by rewrite list_lookup_insert_ne.
Qed.

(** X11. A URL change that does not collide: the located filter gets the new
    URL, name and enabled flag, its rule count and checksum are reset to 0
    and its [LastUpdated] to the zero time, whatever the content directory
    holds; the status has the found, url-changed and update-required flags,
    and the enabled-changed flag when the enabled flag differs. *)
Theorem setProperties_url_change (url : string) (newf : filter) (whitelist : bool)
    (c : configuration) (d : disk) (i : nat) (f : filter) :
  located url whitelist c i f →
  url ≠ URL newf →
  ¬ hasURL (URL newf) (Filters c ++ WhitelistFilters c) →
  filterSetProperties url newf whitelist c d
  = (setSelected whitelist
       (<[i := mkFilter (Enabled newf) (URL newf) (Name newf) 0 zeroTime 0
                 (white f) (ID f) (Data f)]> (selected whitelist c)) c,
     Z.lor (Z.lor statusFound (Z.lor statusURLChanged statusUpdateRequired))
       (if bool_decide (Enabled f ≠ Enabled newf) then statusEnabledChanged else 0)).
Proof.
  intros Hloc Hne Hfree. unfold filterSetProperties.
  unfold located in Hloc. rewrite Hloc.
  pose proof Hloc as (Hi & Hf & _)%list_find_Some.
  cbv zeta.
  rewrite (filterExistsNoLock_store whitelist c i f (setName (Name newf) f) (URL newf))
    by done.
  apply filterExistsNoLock_false in Hfree. rewrite Hfree, andb_false_r.
  cbn [URL setName]. rewrite Hf.
  rewrite (bool_decide_eq_true_2 (url ≠ URL newf)) by done.
  cbn [Enabled setName setURL unload setLastUpdated setChecksum setRulesCount].
  case_bool_decide as He.
  - cbn [Enabled setEnabled].
    change (Z.land (Z.lor (Z.lor 0 (Z.lor statusURLChanged statusUpdateRequired))
                      statusEnabledChanged) statusURLChanged =? 0) with false.
    destruct (Enabled newf); rewrite store_store; reflexivity.
  - rewrite store_store. rewrite <- He. reflexivity.
Qed.

Lemma setProperties_url_change_witness :
  filterSetProperties "http://a/list.txt"
    (mkFilter false "http://a/moved.txt" "moved" 0 0 0 false 0 []) false twoLists ∅
  = (mkConfig [mkFilter false "http://a/moved.txt" "moved" 0 zeroTime 0 false 11 []; listB]
       [] 24 true [], 23).
Proof.
  apply (setProperties_url_change "http://a/list.txt"
           (mkFilter false "http://a/moved.txt" "moved" 0 0 0 false 0 []) false twoLists ∅
           0 listA).
  - reflexivity.
  - discriminate.
  - intros (g & Hg & Hu). vm_compute in Hg.
    repeat (apply elem_of_cons in Hg as [->|Hg]; [discriminate Hu|]).
    by apply elem_of_nil in Hg.
Defined.

(** ** Further properties of the refresh orchestrator *)

(** X13. The snapshot holds one entry for each enabled filter that is due (every
    enabled filter when forced); an entry carries the identifier, URL, name
    and checksum of its filter and the zero value in every other field.
    Disabled filters never enter it. *)
Theorem snapshot_spec (force : bool) (now hours : Z) (filters : list filter)
    (uf : filter) :
  uf ∈ snapshot force now hours filters
  ↔ ∃ f, f ∈ filters ∧ Enabled f = true
         ∧ (force = true ∨ Unix (LastUpdated f) + hours * 60 * 60 ≤ Unix now)
         ∧ uf = mkFilter false (URL f) (Name f) 0 zeroTime (checksum f) false (ID f) [].
Proof.
  unfold snapshot. rewrite list_elem_of_omap. unfold due.
  split.
  - intros (f & Hin & Hdue). exists f. split; [done|].
    destruct (Enabled f); [|done]. split; [done|]. simpl in Hdue.
    destruct force; simpl in Hdue.
    + split; [by left|]. by injection Hdue as <-.
    + destruct (_ >? _) eqn:Hgt; [done|]. split; [right; lia|]. by injection Hdue as <-.
  - intros (f & Hin & Hen & Hdue & ->). exists f. split; [done|]. rewrite Hen. simpl.
    destruct force; simpl; [done|]. destruct Hdue as [?|Hle]; [done|].
    destruct (_ >? _) eqn:Hgt; [lia | done].
Qed.

Lemma failures_all ufs fetch i :
  (∀ j uf, ufs !! j = Some uf → fetchErr uf (fetch (i + j)%nat) ≠ None) →
  failures ufs fetch i = length ufs.
Proof.
  revert i. induction ufs as [|uf ufs IH]; intros i H; [done|].
  rewrite failures_cons.
  pose proof (H 0%nat uf eq_refl) as H0. rewrite Nat.add_0_r in H0.
  destruct (fetchErr uf (fetch i)); [|done]. simpl. f_equal. apply IH.
  intros j uf' Hj. specialize (H (S j) uf' Hj).
  by replace (S i + j)%nat with (i + S j)%nat by lia.
Qed.

(** X14. When the snapshot is not empty and every fetch fails, the pass reports
    total network failure with count 0 and no snapshot, and the live
    collection is exactly as it was, [LastUpdated] included. *)
Theorem refresh_total_failure (filters : list filter) (force : bool) (hours : Z)
    (env : Env) (d : disk) :
  snapshot force (e_now env) hours filters ≠ [] →
  (∀ j uf, snapshot force (e_now env) hours filters !! j = Some uf →
           fetchErr uf (e_fetch env j) ≠ None) →
  (refreshFiltersArray filters force hours env d).1
  = (mkRefreshed 0 [] [] true, filters).
Proof.
  intros Hne Hfail. unfold refreshFiltersArray.
  set (ufs := snapshot force (e_now env) hours filters) in *.
  rewrite bool_decide_eq_false_2 by (by destruct ufs).
  pose proof (fetchAll_results ufs (e_fetch env) 0 d) as Hf.
  destruct (fetchAll ufs (e_fetch env) 0 d) as [[[ufs' flags] nfail] d'].
  destruct Hf as (-> & -> & ->).
  rewrite failures_all by done. rewrite length_fmap, length_results.
  by rewrite bool_decide_eq_true_2.
Qed.

Lemma refresh_total_failure_witness :
  (refreshFiltersArray [listA; listB] true 24 outage ∅).1
  = (mkRefreshed 0 [] [] true, [listA; listB]).
Proof.
  apply refresh_total_failure.
  - discriminate.
  - intros [|[|j]] uf Hj; [| |discriminate Hj]; injection Hj as <-; discriminate.
Defined.

Lemma merge_identity uf b f :
  ID (merge uf b f) = ID f ∧ URL (merge uf b f) = URL f
  ∧ Enabled (merge uf b f) = Enabled f ∧ white (merge uf b f) = white f
  ∧ Data (merge uf b f) = Data f.
Proof. unfold merge. by destruct (sameFilter uf f), b. Qed.

Lemma mergeAll_identity res f :
  ID (mergeAll res f) = ID f ∧ URL (mergeAll res f) = URL f
  ∧ Enabled (mergeAll res f) = Enabled f ∧ white (mergeAll res f) = white f
  ∧ Data (mergeAll res f) = Data f.
Proof.
  revert f. induction res as [|[uf b] res IH]; intros f; [done|].
  simpl. fold (mergeAll res (merge uf b f)).
  destruct (IH (merge uf b f)) as (-> & -> & -> & -> & ->). apply merge_identity.
Qed.

(** X15. A pass never adds, removes or reorders live filters, and never changes
    the identifier, URL, enabled flag, [white] tag or data of one. *)
Theorem refresh_preserves_identity (filters : list filter) (force : bool)
    (hours : Z) (env : Env) (d : disk) :
  map (fun f => (ID f, URL f, Enabled f, white f, Data f))
    (refreshFiltersArray filters force hours env d).1.2
  = map (fun f => (ID f, URL f, Enabled f, white f, Data f)) filters.
Proof.
  rewrite refreshFiltersArray_filters. case_bool_decide; [done|].
  rewrite map_map. apply map_ext. intros f.
  by destruct (mergeAll_identity
                 (results (snapshot force (e_now env) hours filters) (e_fetch env) 0) f)
    as (-> & -> & -> & -> & ->).
Qed.




Lemma refreshFiltersIfNecessary_status flags envB envW s :
  refreshStatus (refreshFiltersIfNecessary flags envB envW s).2 = refreshStatus s.
Proof.
  unfold refreshFiltersIfNecessary.
  destruct (negb (Z.land flags FilterRefreshBlocklists =? 0)).
  - destruct (refreshFiltersArray (Filters (config s)) _ _ _ _) as [[rb fs] d1].
    destruct (negb (Z.land flags FilterRefreshAllowlists =? 0)).
    + destruct (refreshFiltersArray _ _ _ _ _) as [[rw ws] d2].
      by repeat (match goal with |- context [if ?b then _ else _] => destruct b end).
    + by repeat (match goal with |- context [if ?b then _ else _] => destruct b end).
  - destruct (negb (Z.land flags FilterRefreshAllowlists =? 0)).
    + destruct (refreshFiltersArray _ _ _ _ _) as [[rw ws] d2].
      by repeat (match goal with |- context [if ?b then _ else _] => destruct b end).
    + by repeat (match goal with |- context [if ?b then _ else _] => destruct b end).
Qed.

(** X17. A cycle hands a new filter set to the serving engine exactly when its
    count of updated filters is not 0: with count 0 the engine is left as it
    was, otherwise no network error is reported and the engine holds the
    descriptors of the collections as the cycle leaves them. The guard flag
    is never touched by the cycle itself. *)
Theorem activation_only_on_change (flags : Z) (envB envW : Env) (s : state) :
  let '(n, netErr, s') := refreshFiltersIfNecessary flags envB envW s in
  refreshStatus s' = refreshStatus s
  ∧ (n = 0 → engine s' = engine s)
  ∧ (n ≠ 0 → netErr = false ∧ engine s' = Some (enableFilters (config s'))).
Proof.
  pose proof (refreshFiltersIfNecessary_status flags envB envW s) as Hst.
  unfold refreshFiltersIfNecessary in *.
  destruct (if negb (Z.land flags FilterRefreshBlocklists =? 0) then _ else _)
    as [[rb c1] d1].
  destruct (if negb (Z.land flags FilterRefreshAllowlists =? 0) then _ else _)
    as [[rw c2] d2].
  destruct (r_netError rb && r_netError rw); [by simpl in *|].
  destruct (r_updateCount rb + r_updateCount rw =? 0) eqn:Hn; simpl in *.
  - apply Z.eqb_eq in Hn. split; [done|]. split; [done|]. by intros [].
  - apply Z.eqb_neq in Hn. split; [done|]. split; [by intros ?|]. done.
Qed.


(** ** Identifiers *)

Lemma load_disabled_frame f d :
  URL (load f d).1 = URL f ∧ Enabled (load f d).1 = Enabled f ∧ ID (load f d).1 = ID f.
Proof. destruct (load_frame f d) as (? & ? & ? & ? & ?). done. Qed.

(** X19. [loadFilters] keeps the number and order of the filters, their URLs and
    enabled flags and every non-zero identifier, and returns a disabled
    filter that has an identifier exactly as it was; the filters that come
    with identifier 0 get the successive values of the counter, in order,
    and the counter ends advanced by their number (no overflow assumed). *)
Theorem loadFilters_spec (array : list filter) (next : Z) (d : disk) :
  - 2 ^ 63 ≤ next → next + unassigned (map ID array) < 2 ^ 63 →
  (loadFilters array next d).2 = next + unassigned (map ID array)
  ∧ map (fun p => ID p.2)
      (List.filter (fun p => ID p.1 =? 0) (zip array (loadFilters array next d).1))
    = seqZ next (unassigned (map ID array))
  ∧ Forall2 (fun f g => URL g = URL f ∧ Enabled g = Enabled f
                        ∧ (ID f ≠ 0 → ID g = ID f)
                        ∧ (ID f ≠ 0 → Enabled f = false → g = f))
      array (loadFilters array next d).1.
Proof.
  revert next. induction array as [|f array IH]; intros next Hlo Hhi.
  - unfold unassigned. simpl. split; [lia|]. split; [done | constructor].
  - simpl loadFilters. unfold assignUniqueFilterID.
    assert (Hpos : 0 ≤ unassigned (map ID array)) by (unfold unassigned; lia).
    destruct (ID f =? 0) eqn:Hid.
    + assert (Hk : unassigned (map ID (f :: array)) = 1 + unassigned (map ID array)).
      { unfold unassigned. simpl. rewrite Hid. simpl length. lia. }
      rewrite Hk in *. rewrite wrap64_small by lia.
      destruct (IH (next + 1)) as (IH1 & IH2 & IH3); [lia | lia |].
      destruct (loadFilters array (next + 1) d) as [fs n']. simpl in IH1, IH2, IH3.
      cbn [fst snd]. split; [lia|]. split.
      * cbn [zip zip_with List.filter fst]. rewrite Hid. cbn [map snd].
        rewrite IH2. rewrite (seqZ_cons next) by lia.
        f_equal.
        { destruct (Enabled (setID next f)); [by rewrite load_ID|done]. }
        f_equal; lia.
      * constructor; [|done]. apply Z.eqb_eq in Hid.
        destruct (Enabled (setID next f)) eqn:He.
        { destruct (load_disabled_frame (setID next f) d) as (-> & -> & ->).
          repeat split; try done; by intros []. }
        repeat split; try done; by intros [].
    + assert (Hk : unassigned (map ID (f :: array)) = unassigned (map ID array)).
      { unfold unassigned. simpl. by rewrite Hid. }
      rewrite Hk in *.
      destruct (IH next) as (IH1 & IH2 & IH3); [lia | lia |].
      destruct (loadFilters array next d) as [fs n']. simpl in IH1, IH2, IH3.
      cbn [fst snd]. split; [lia|]. split.
      * cbn [zip zip_with List.filter fst]. by rewrite Hid.
      * constructor; [|done].
        destruct (Enabled f) eqn:He.
        { destruct (load_disabled_frame f d) as (-> & -> & ->).
          repeat split; try done. }
        repeat split; done.
Qed.

Lemma loadFilters_spec_witness :
  (loadFilters [setID 0 listA; setEnabled false listB; setID 0 allowA] 1600000000 ∅).2
  = 1600000002
  ∧ map ID (loadFilters [setID 0 listA; setEnabled false listB; setID 0 allowA]
              1600000000 ∅).1
    = [1600000000; 12; 1600000001].
Proof.
  destruct (loadFilters_spec [setID 0 listA; setEnabled false listB; setID 0 allowA]
              1600000000 ∅) as (H & _).
  - lia.
  - vm_compute. reflexivity.
  - split; [exact H | reflexivity].
Defined.



(** ** The HTML check *)

Lemma hasPrefix_spec p s : GoStrings.hasPrefix p s = true ↔ ∃ post, s = p ++ post.
Proof.
  revert s. induction p as [|a p IH]; intros s; simpl.
  - split; [intros _; by exists s | done].
  - destruct s as [|b s].
    + split; [done | by intros (post & ?)].
    + rewrite andb_true_iff, bool_decide_eq_true, IH. split.
      * intros [-> (post & ->)]. by exists post.
      * intros (post & [= -> ->]). split; [done | by exists post].
Qed.

Lemma Contains_spec s sub :
  GoStrings.Contains s sub = true ↔ ∃ pre post, s = pre ++ sub ++ post.
Proof.
  induction s as [|c s IH]; simpl.
  - rewrite orb_false_r, hasPrefix_spec. split.
    + intros (post & H). by exists [], post.
    + intros (pre & post & H). destruct pre; [by exists post|done].
  - rewrite orb_true_iff, hasPrefix_spec, IH. split.
    + intros [(post & H)|(pre & post & ->)]; [by exists [], post|].
      by exists (c :: pre), post.
    + intros (pre & post & H). destruct pre as [|c' pre].
      * left. by exists post.
      * right. injection H as -> ->. by exists pre, post.
Qed.

Lemma readStep_completes_html data c eof st :
  sampling data st → (firstChunkSize ≤ length (data ++ c_data c))%nat →
  match readStep c eof st with
  | inl (e, _) =>
      e = ErrHTML
      ↔ isPrintableText (take firstChunkSize (data ++ c_data c)) = true
        ∧ htmlSample (take firstChunkSize (data ++ c_data c)) = true
  | inr st' =>
      d_htmlTest st' = false
      ∧ htmlSample (take firstChunkSize (data ++ c_data c)) = false
  end.
Proof.
  intros Hs Hge. unfold readStep.
  rewrite (sniff_sampling data) by (by apply sampling_total).
  rewrite bool_decide_eq_true_2 by done. unfold verdict, htmlSample.
  destruct (isPrintableText _) eqn:Hp; simpl; [|by split; [|intros []]].
  destruct (_ || _); [by split|].
  destruct (c_writeErr c); simpl; [by split; [|intros []]|done].
Qed.

Lemma readAll_html chunks last err pre c post data st :
  sampling data st →
  chunks ++ [last] = pre ++ c :: post →
  Forall (fun x => c_writeErr x = false) pre →
  (length (data ++ delivered pre) < firstChunkSize)%nat →
  (firstChunkSize ≤ length (data ++ delivered pre ++ c_data c))%nat →
  (∃ checked, readAll chunks last err st = inl (ErrHTML, checked))
  ↔ isPrintableText (take firstChunkSize (data ++ delivered pre ++ c_data c)) = true
    ∧ htmlSample (take firstChunkSize (data ++ delivered pre ++ c_data c)) = true.
Proof.
  revert chunks data st.
  induction pre as [|p pre IH]; intros chunks data st Hs Hsplit Hw Hlt Hge.
  - unfold delivered in *. simpl in *. rewrite app_nil_r in Hlt.
    assert (Hstep : ∀ eof,
      match readStep c eof st with
      | inl (e, _) =>
          e = ErrHTML
          ↔ isPrintableText (take firstChunkSize (data ++ c_data c)) = true
            ∧ htmlSample (take firstChunkSize (data ++ c_data c)) = true
      | inr st' =>
          d_htmlTest st' = false
          ∧ htmlSample (take firstChunkSize (data ++ c_data c)) = false
      end) by (intros eof; by apply readStep_completes_html).
    destruct chunks as [|c' chunks]; simpl in Hsplit; simplify_eq; simpl.
    + specialize (Hstep (isEOF err)).
      destruct (readStep c (isEOF err) st) as [[e ch]|st'].
      * rewrite <- Hstep. split; [by intros (? & [= -> _]) | intros ->; eauto].
      * destruct Hstep as (Ht & Hh). rewrite Hh.
        destruct err; split; try (by intros (? & ?)); by intros [_ ?].
    + specialize (Hstep false).
      destruct (readStep c false st) as [[e ch]|st'].
      * rewrite <- Hstep. split; [by intros (? & [= -> _]) | intros ->; eauto].
      * destruct Hstep as (Ht & Hh). rewrite Hh.
        pose proof (readAll_settled chunks last err st' Ht) as Hrest.
        destruct (readAll chunks last err st') as [[e ch]|st''].
        { destruct Hrest as [He _]. split; [|by intros [_ ?]].
          intros (? & [= -> _]). by destruct He. }
        split; [by intros (? & ?) | by intros [_ ?]].
  - apply Forall_cons in Hw as [Hwp Hw].
    unfold delivered in Hlt, Hge. simpl in Hlt, Hge. fold (delivered pre) in Hlt, Hge.
    destruct chunks as [|c' chunks]; simpl in Hsplit.
    { destruct pre; simplify_eq/=. }
    simplify_eq. simpl.
    destruct (readStep_continues data p st Hs) as (st' & -> & Hs' & _); [|done|].
    { rewrite !length_app in *. lia. }
    replace (data ++ delivered (p :: pre) ++ c_data c)
      with ((data ++ c_data p) ++ delivered pre ++ c_data c)
      by (unfold delivered; simpl; by rewrite <- !app_assoc).
    apply IH; try done; rewrite !length_app in *; lia.
Qed.

(** X21. On a fetch that gets status 200 and whose reads deliver at least 4096
    bytes, no write failing before they have, the fetch fails as HTML
    exactly when the first 4096 bytes pass the printable check and, with the
    letters [A] to [Z] lowered, contain [<html] or [<!doctype]. *)
Theorem html_sample_rejected (f : filter) (w : World) (d : disk) (body : Body)
    (pre : list Chunk) (c : Chunk) (post : list Chunk) :
  w_tempFileErr w = false →
  w_resp w = Resp 200 body →
  b_chunks body ++ [b_last body] = pre ++ c :: post →
  Forall (fun x => c_writeErr x = false) pre →
  (length (delivered pre) < firstChunkSize ≤ length (delivered pre ++ c_data c))%nat →
  let sample := take firstChunkSize (delivered pre ++ c_data c) in
  (updateIntl f w d).1.2 = Some ErrHTML
  ↔ isPrintableText sample = true
    ∧ ∃ before after,
        GoStrings.ToLower sample = before ++ bytes "<html" ++ after
        ∨ GoStrings.ToLower sample = before ++ bytes "<!doctype" ++ after.
Proof.
  intros Htmp Hresp Hsplit Hw [Hlt Hge] sample.
  pose proof (readAll_html (b_chunks body) (b_last body) (b_err body)
                pre c post [] download0 sampling_download0 Hsplit Hw Hlt Hge) as Hs.
  simpl app in Hs. fold sample in Hs.
  assert (Hhtml : htmlSample sample = true
                  ↔ ∃ before after,
                      GoStrings.ToLower sample = before ++ bytes "<html" ++ after
                      ∨ GoStrings.ToLower sample = before ++ bytes "<!doctype" ++ after).
  { unfold htmlSample. rewrite orb_true_iff, !Contains_spec. split.
    - intros [(a & b & H)|(a & b & H)]; exists a, b; eauto.
    - intros (a & b & [H|H]); [left | right]; eauto. }
  rewrite <- Hhtml, <- Hs.
  unfold updateIntl. rewrite Htmp, Hresp.
  change (negb (200 =? 200)) with false. cbv beta iota.
  destruct (readAll _ _ _ _) as [[e ch]|st].
  - simpl. split; [intros [= ->]; eauto | by intros (? & [= -> _])].
  - destruct (parseFilterContents (d_tmpfile st)) as [[n sum] name].
    destruct (checksum f =? sum); [simpl; split; [done | by intros (? & ?)]|].
    destruct (w_renameErr w); simpl; split; try done; by intros (? & ?).
Qed.

Lemma html_sample_rejected_witness :
  (updateIntl listA (serves errorPage t1) ∅).1.2 = Some ErrHTML
  ∧ isPrintableText (take firstChunkSize errorPage) = true
  ∧ ∃ before after,
      GoStrings.ToLower (take firstChunkSize errorPage) = before ++ bytes "<html" ++ after
      ∨ GoStrings.ToLower (take firstChunkSize errorPage)
        = before ++ bytes "<!doctype" ++ after.
Proof.
  assert (E : (updateIntl listA (serves errorPage t1) ∅).1.2 = Some ErrHTML)
    by (vm_compute; reflexivity).
  split; [exact E|].
  apply (html_sample_rejected listA (serves errorPage t1) ∅
           (mkBody [] (mkChunk errorPage false) EOF) [] (mkChunk errorPage false) []).
  - reflexivity.
  - reflexivity.
  - reflexivity.
  - constructor.
  - split; [vm_compute; lia | vm_compute; lia].
  - exact E.
Defined.

(** X22. [update] sets [LastUpdated] to its clock reading on every path, failed
    fetches included, and never changes the identifier, URL, enabled flag,
    [white] tag or data of the filter; when it reports no change and the
    error is not the failed rename, nothing but [LastUpdated] differs. *)
Theorem update_frame (f : filter) (w : World) (d : disk) :
  let '(f', b, err, _) := update f w d in
  LastUpdated f' = w_now w
  ∧ ID f' = ID f ∧ URL f' = URL f ∧ Enabled f' = Enabled f
  ∧ white f' = white f ∧ Data f' = Data f
  ∧ (b = false → err ≠ Some ErrRename → f' = setLastUpdated (w_now w) f).
Proof.
  unfold update, updateIntl.
  destruct (w_tempFileErr w); [done|].
  destruct (w_resp w) as [|code body]; [done|].
  destruct (negb (code =? 200)); [done|].
  destruct (readAll _ _ _ _) as [[e ?]|st]; [done|].
  destruct (parseFilterContents _) as [[n sum] name].
  destruct (checksum f =? sum); [done|].
  destruct (w_renameErr w); case_bool_decide; simpl; repeat split; done.
Qed.

(** X12. Enabling a disabled filter without changing its URL: when the content
    directory has its file, the filter takes rule count and checksum from
    the file and the modification time of the file as [LastUpdated], and the
    status is found with enabled-changed; when the file is missing, rule
    count and checksum are 0, [LastUpdated] is the zero time and the status
    also asks for an update. *)
Theorem setProperties_enable (url : string) (newf : filter) (whitelist : bool)
    (c : configuration) (d : disk) (i : nat) (f : filter) :
  located url whitelist c i f →
  URL newf = url → Enabled f = false → Enabled newf = true →
  filterSetProperties url newf whitelist c d
  = match d !! ID f with
    | Some file =>
        (setSelected whitelist
           (<[i := mkFilter true url (Name newf) (parseFilterContents (f_data file)).1.1
                     (f_mtime file) (parseFilterContents (f_data file)).1.2
                     (white f) (ID f) (Data f)]> (selected whitelist c)) c,
         Z.lor statusFound statusEnabledChanged)
    | None =>
        (setSelected whitelist
           (<[i := mkFilter true url (Name newf) 0 zeroTime 0
                     (white f) (ID f) (Data f)]> (selected whitelist c)) c,
         Z.lor (Z.lor statusFound statusEnabledChanged) statusUpdateRequired)
    end.
Proof.
  intros Hloc Hurl Hen Hnew. unfold filterSetProperties.
  unfold located in Hloc. rewrite Hloc.
  pose proof Hloc as (Hi & Hf & _)%list_find_Some.
  cbv zeta. cbn [URL setName]. rewrite Hf, Hurl.
  rewrite (bool_decide_eq_false_2 (url ≠ url)) by (by intros []).
  simpl andb. cbv iota. cbn [Enabled setName]. rewrite Hen, Hnew.
  rewrite (bool_decide_eq_true_2 (false ≠ true)) by done.
  cbv iota. cbn [Enabled setEnabled].
  change (Z.land (Z.lor 0 statusEnabledChanged) statusURLChanged =? 0) with true.
  cbv iota. unfold load. cbn [ID setEnabled setName].
  destruct (d !! ID f) as [file|].
  - destruct (parseFilterContents (f_data file)) as [[n sum] name].
    rewrite store_store. cbn [fst snd]. by rewrite <- Hf.
  - rewrite store_store. by rewrite <- Hf.
Qed.

Lemma setProperties_enable_witness :
  filterSetProperties "http://a/list.txt" (setName "on" listA) false
    (mkConfig [offA; listB] [] 24 true []) ∅
  = (mkConfig [mkFilter true "http://a/list.txt" "on" 0 zeroTime 0 false 11 []; listB]
       [] 24 true [], 19).
Proof.
  pose proof (setProperties_enable "http://a/list.txt" (setName "on" listA) false
                (mkConfig [offA; listB] [] 24 true []) ∅ 0 offA
                eq_refl eq_refl eq_refl eq_refl) as H.
  rewrite lookup_empty in H. exact H.
Defined.
